(** * Skogestad-Python, Chapter_04.py: state-space analysis helpers

    A shallow embedding of [state_controllability], [state_observability],
    [is_min_realisation], [pole_zero_directions] and [zero].

    The numeric libraries the module calls (numpy, scipy.linalg, sympy and
    the repository's own [utils.SVD]) are interfaces here: the scalar
    arithmetic is a class [Numeric], the decompositions and the symbolic
    solver a class [LinAlg].  Array plumbing (shapes, slicing, stacking,
    products, powers, determinant expansion) is written out, because that is
    where the Python code can raise.  Every call of a decomposition, of the
    transfer function or of the determinant leaves an event in a trace, so
    that the order of the computations can be stated.  The transfer
    function and the providers are total: what they compute is theirs, an
    exception of theirs is not modelled.  Facts that need exact arithmetic
    say so through [ExactEq] and [ExactRing]. *)

From Stdlib Require Import String ZArith Ring Field Arith Lia Bool List.
From Stdlib Require QArith Qcanon Qround.
Import ListNotations.

Set Implicit Arguments.

(** ** Scalars *)

(** The entries of an array: numpy's float64/complex128 or sympy's numbers.
    [ksqabs x] is [x.real**2 + x.imag**2]; [karound d x] is
    [numpy.around(x, d)]; [keqb] is Python's [==]. *)
Class Numeric (K : Type) : Type := {
  k0 : K;
  k1 : K;
  kadd : K -> K -> K;
  kmul : K -> K -> K;
  ksub : K -> K -> K;
  kopp : K -> K;
  kconj : K -> K;
  ksqabs : K -> K;
  ksqrt : K -> K;
  karound : nat -> K -> K;
  keqb : K -> K -> bool
}.

(** ** Exceptions, events and the computation monad *)

Inductive exn : Type :=
| ValueError            (* numpy: shapes not aligned, empty stack, non-square eig input *)
| IndexError            (* numpy: column index out of range *)
| LinAlgError           (* numpy.linalg.matrix_power on a non-square array *)
| ShapeError            (* sympy: matrix size mismatch *)
| NonSquareMatrixError. (* sympy: det of a non-square matrix *)

Inductive result (X : Type) : Type :=
| Ok (x : X)
| Raise (e : exn).

Arguments Raise {X} e.

Section Toolkit.

Context {K : Type} {num : Numeric K}.

(** What the trace records. *)
Inductive event : Type :=
| EvEig               (* scipy.linalg.eig called *)
| EvEvalG (s : K)     (* the transfer function G called at s *)
| EvSVD               (* utils.SVD called *)
| EvDet               (* sympy Matrix.det called *)
| EvSolve.            (* sympy.solve called *)

Definition M (X : Type) : Type := (list event * result X)%type.

Definition ret {X} (x : X) : M X := ([], Ok x).

Definition raise {X} (e : exn) : M X := ([], Raise e).

Definition tell (ev : event) : M unit := ([ev], Ok tt).

Definition bind {X Y} (m : M X) (f : X -> M Y) : M Y :=
  match m with
  | (t, Ok x) => let (t', r) := f x in (t ++ t', r)
  | (t, Raise e) => (t, Raise e)
  end.

Notation "x <- c ;; k" := (bind c (fun x => k))
  (at level 61, c at next level, right associativity).
Notation "' pat <- c ;; k" := (bind c (fun x => match x with pat => k end))
  (at level 61, pat pattern, c at next level, right associativity).
Notation "c ;;; k" := (bind c (fun _ => k))
  (at level 61, right associativity).

(** A list comprehension / [for] loop with [append]: left to right, the
    first exception ends it. *)
Fixpoint mapM {X Y} (f : X -> M Y) (l : list X) : M (list Y) :=
  match l with
  | [] => ret []
  | x :: l' => y <- f x ;; ys <- mapM f l' ;; ret (y :: ys)
  end.

Definition trace {X} (m : M X) : list event := fst m.
Definition outcome {X} (m : M X) : result X := snd m.

(** ** Arrays *)

(** A dense 2-D array: its shape and its rows. *)
Record ndarray : Type := mk_nd {
  nrows : nat;
  ncols : nat;
  rows : list (list K)
}.

Definition shape (X : ndarray) : nat * nat := (nrows X, ncols X).

Definition get (X : ndarray) (i j : nat) : K :=
  nth j (nth i (rows X) []) k0.

(** The array of shape (r, c) whose entry (i, j) is [f i j]. *)
Definition build (r c : nat) (f : nat -> nat -> K) : ndarray :=
  mk_nd r c (map (fun i => map (f i) (seq 0 c)) (seq 0 r)).

(** [numpy.array] of a nested list. *)
Definition array (l : list (list K)) : ndarray :=
  mk_nd (length l) (length (hd [] l)) l.

(** Sum of [f 0 .. f (n-1)]. *)
Definition ksum (f : nat -> K) (n : nat) : K :=
  fold_left (fun acc k => kadd acc (f k)) (seq 0 n) k0.

(** [X.T] and [X.H]. *)
Definition transpose (X : ndarray) : ndarray :=
  build (ncols X) (nrows X) (fun i j => get X j i).

Definition ctranspose (X : ndarray) : ndarray :=
  build (ncols X) (nrows X) (fun i j => kconj (get X j i)).

(** [numpy.eye(n)] and [numpy.zeros((r, c))]. *)
Definition eye (n : nat) : ndarray :=
  build n n (fun i j => if i =? j then k1 else k0).

Definition zeros (r c : nat) : ndarray :=
  build r c (fun _ _ => k0).

(** The product of aligned arrays. *)
Definition mmul (X Y : ndarray) : ndarray :=
  build (nrows X) (ncols Y)
        (fun i j => ksum (fun k => kmul (get X i k) (get Y k j)) (ncols X)).

(** [X * Y] on numpy matrices. *)
Definition matmul (X Y : ndarray) : M ndarray :=
  if ncols X =? nrows Y then ret (mmul X Y) else raise ValueError.

(** The power of a square array; numpy groups the products by squaring,
    which gives the same array in exact arithmetic. *)
Fixpoint mpow (X : ndarray) (n : nat) : ndarray :=
  match n with
  | O => eye (nrows X)
  | S n' => mmul (mpow X n') X
  end.

(** [X ** n] on a numpy matrix. *)
Definition matrix_power (X : ndarray) (n : nat) : M ndarray :=
  if nrows X =? ncols X then ret (mpow X n) else raise LinAlgError.

(** Entry (i, j) of the arrays of [ms] laid side by side. *)
Fixpoint hget (ms : list ndarray) (i j : nat) : K :=
  match ms with
  | [] => k0
  | X :: ms' => if j <? ncols X then get X i j else hget ms' i (j - ncols X)
  end.

(** Entry (i, j) of the arrays of [ms] laid one under the other. *)
Fixpoint vget (ms : list ndarray) (i j : nat) : K :=
  match ms with
  | [] => k0
  | X :: ms' => if i <? nrows X then get X i j else vget ms' (i - nrows X) j
  end.

Definition total (f : ndarray -> nat) (ms : list ndarray) : nat :=
  fold_right (fun X acc => f X + acc) 0 ms.

(** [numpy.hstack] of 2-D arrays: all need the same number of rows. *)
Definition hstack (ms : list ndarray) : M ndarray :=
  match ms with
  | [] => raise ValueError
  | X :: ms' =>
      if forallb (fun Y => nrows Y =? nrows X) ms'
      then ret (build (nrows X) (total ncols ms) (hget ms))
      else raise ValueError
  end.

(** [numpy.vstack] of 2-D arrays: all need the same number of columns. *)
Definition vstack (ms : list ndarray) : M ndarray :=
  match ms with
  | [] => raise ValueError
  | X :: ms' =>
      if forallb (fun Y => ncols Y =? ncols X) ms'
      then ret (build (total nrows ms) (ncols X) (vget ms))
      else raise ValueError
  end.

(** [X[:, i]] of a numpy array, for [i] in range: a 1-D array. *)
Definition col1d (X : ndarray) (i : nat) : list K :=
  map (fun r => get X r i) (seq 0 (nrows X)).

(** Iterating over a 2-D array yields its rows as 1-D arrays. *)
Definition iter_rows (X : ndarray) : list (list K) :=
  map (fun i => map (get X i) (seq 0 (ncols X))) (seq 0 (nrows X)).

(** [numpy.asmatrix] of a 1-D array: one row. *)
Definition asmatrix1d (v : list K) : ndarray :=
  mk_nd 1 (length v) [v].

(** [numpy.asmatrix] of a 2-D array: the same data, as a matrix. *)
Definition asmatrix (X : ndarray) : ndarray := X.

(** [C.dot(x)] of a numpy matrix and a 1-D array: a matrix of one row. *)
Definition dot1d (X : ndarray) (x : list K) : M ndarray :=
  if ncols X =? length x
  then ret (build 1 (nrows X)
                  (fun _ k => ksum (fun j => kmul (get X k j) (nth j x k0)) (ncols X)))
  else raise ValueError.

(** [numpy.around(X, d)]. *)
Definition around (X : ndarray) (d : nat) : ndarray :=
  build (nrows X) (ncols X) (fun i j => karound d (get X i j)).

(** [numpy.sum(X)]: the sum of all entries. *)
Definition npsum (X : ndarray) : K :=
  ksum (fun i => ksum (fun j => get X i j) (ncols X)) (nrows X).

(** [numpy.linalg.norm(X)]: the square root of the sum of the squared
    moduli of all entries. *)
Definition norm (X : ndarray) : K :=
  ksqrt (ksum (fun i => ksum (fun j => ksqabs (get X i j)) (ncols X)) (nrows X)).

(** Python's [any] over a generator of booleans. *)
Definition any {X} (p : X -> bool) (l : list X) : bool := existsb p l.

(** [range(n)]. *)
Definition range (n : nat) : list nat := seq 0 n.

(** ** Symbolic expressions in [z] *)

(** A polynomial in the symbol z, lowest coefficient first. *)
Definition poly : Type := list K.

(** ** The providers *)

(** What scipy, utils and sympy return: the matrix of left eigenvectors and
    the matrix of right eigenvectors of a square array (one eigenvector per
    column), the three factors of a singular value decomposition, and the
    roots of an expression in z. *)
Class LinAlg : Type := {
  eig_vl : ndarray -> ndarray;
  eig_vr : ndarray -> ndarray;
  svd : ndarray -> ndarray * ndarray * ndarray;
  sp_solve : poly -> list K
}.

Context {la : LinAlg}.

(** [scipy.linalg.eig(A, left=True, right=False)[1]]. *)
Definition eig_left (A : ndarray) : M ndarray :=
  tell EvEig ;;;
  if nrows A =? ncols A then ret (eig_vl A) else raise ValueError.

(** [scipy.linalg.eig(A, left=False, right=True)[1]]. *)
Definition eig_right (A : ndarray) : M ndarray :=
  tell EvEig ;;;
  if nrows A =? ncols A then ret (eig_vr A) else raise ValueError.

(** ** Chapter_04.state_controllability *)

Definition state_controllability (A B : ndarray)
  : M (bool * list ndarray * ndarray) :=
  let A := asmatrix A in
  let B := asmatrix B in
  vl <- eig_left A ;;
  u_p <- mapM (fun i => let vli := asmatrix1d (col1d vl i) in
                        matmul (ctranspose B) (transpose vli))
              (range (ncols vl)) ;;
  let state_control := negb (any (fun x => keqb (norm x) k0) u_p) in
  c_plus <- mapM (fun n => An <- matrix_power A n ;; matmul An B)
                 (range (ncols A)) ;;
  control_matrix <- hstack c_plus ;;
  ret (state_control, u_p, control_matrix).

(** ** Chapter_04.state_observability *)

Definition state_observability (A C : ndarray)
  : M (bool * list ndarray * ndarray) :=
  let A := asmatrix A in
  let C := asmatrix C in
  vr <- eig_right A ;;
  out_pole_vec <- mapM (fun x => y <- dot1d C x ;; ret (around y 3))
                       (iter_rows (transpose vr)) ;;
  let state_obsr := negb (any (fun x => keqb (npsum x) k0) out_pole_vec) in
  o_plus <- mapM (fun n => An <- matrix_power A n ;; matmul C An)
                 (range (ncols A)) ;;
  observe_matrix <- vstack o_plus ;;
  ret (state_obsr, out_pole_vec, observe_matrix).

(** ** Chapter_04.is_min_realisation *)

Definition is_min_realisation (A B C : ndarray) : M bool :=
  '(state_obsr, out_pole_vec, observe_matrix) <- state_observability A C ;;
  '(state_control, in_pole_vec, control_matrix) <- state_controllability A B ;;
  ret (state_control && state_obsr).

(** ** Chapter_04.pole_zero_directions *)

(** An entry of the returned list: an array ([display_type] 'u' or 'y') or
    the tuple [(d, u, y)]. *)
Inductive pyval : Type :=
| PyArr (x : ndarray)
| PyTuple (d : K) (u y : ndarray).

(** [X[:, dt]] of a numpy matrix with a Python index: a negative [dt]
    counts from the last column; out of range raises. *)
Definition getcol (X : ndarray) (dt : Z) : M ndarray :=
  let c := Z.of_nat (ncols X) in
  let j := (if dt <? 0 then dt + c else dt)%Z in
  if ((0 <=? j) && (j <? c))%Z
  then ret (build (nrows X) 1 (fun i _ => get X i (Z.to_nat j)))
  else raise IndexError.

(** The call [G(s)]. *)
Definition call_G (G : K -> ndarray) (s : K) : M ndarray :=
  tell (EvEvalG s) ;;; ret (G s).

(** The call [SVD(g)] of utils. *)
Definition SVD (g : ndarray) : M (ndarray * ndarray * ndarray) :=
  tell EvSVD ;;; ret (svd g).

(** The body of the [for d in vec] loop: the entry appended for [d]. *)
Definition pz_dir_entry (G : K -> ndarray) (dt : Z) (e : K)
    (display_type : string) (d : K) : M pyval :=
  g <- call_G G (kadd d e) ;;
  '(U, _, V) <- SVD g ;;
  u <- getcol V dt ;;
  y <- getcol U dt ;;
  if String.eqb display_type "u" then ret (PyArr u)
  else if String.eqb display_type "y" then ret (PyArr y)
  else ret (PyTuple d u y).

(** The defaults [display_type='a'] and [e=0.00001] of the signature are
    what a caller passes when it omits them. *)
Definition pole_zero_directions (G : K -> ndarray) (vec : list K)
    (dir_type display_type : string) (e : K) : M (list pyval) :=
  let '(dt, e) := if String.eqb dir_type "p" then (0%Z, e)
                  else ((-1)%Z, k0) in
  mapM (pz_dir_entry G dt e display_type) vec.

(** ** Polynomial arithmetic of the symbolic matrices *)

Fixpoint padd (p q : poly) : poly :=
  match p, q with
  | [], _ => q
  | _, [] => p
  | a :: p', b :: q' => kadd a b :: padd p' q'
  end.

Definition popp (p : poly) : poly := map kopp p.

Definition psub (p q : poly) : poly := padd p (popp q).

Definition pscale (a : K) (p : poly) : poly := map (kmul a) p.

Fixpoint pmul (p q : poly) : poly :=
  match p with
  | [] => []
  | a :: p' => padd (pscale a q) (k0 :: pmul p' q)
  end.

(** The value of [p] at [z = r] (Horner). *)
Fixpoint peval (p : poly) (r : K) : K :=
  match p with
  | [] => k0
  | a :: p' => kadd a (kmul r (peval p' r))
  end.

(** The symbol z and a constant. *)
Definition pz : poly := [k0; k1].
Definition pconst (a : K) : poly := [a].

(** ** Determinant by expansion along the first row *)

Section Det.

Variable E : Type.
Variables (e0 e1 : E) (esub emul : E -> E -> E).

(** [l] without its entry [j]. *)
Definition del (j : nat) (l : list E) : list E :=
  firstn j l ++ skipn (S j) l.

(** a0 - a1 + a2 - ... *)
Fixpoint alt_sum (l : list E) : E :=
  match l with
  | [] => e0
  | a :: l' => esub a (alt_sum l')
  end.

(** The determinant of the leading [n] by [n] array of rows [X]. *)
Fixpoint gdet (n : nat) (X : list (list E)) : E :=
  match n, X with
  | S n', r :: rest =>
      alt_sum (map (fun j => emul (nth j r e0) (gdet n' (map (del j) rest)))
                   (seq 0 n))
  | _, _ => e1
  end.

End Det.

Definition kdet (n : nat) (X : list (list K)) : K :=
  gdet k0 k1 ksub kmul n X.

Definition pdet (n : nat) (X : list (list poly)) : poly :=
  gdet [] (pconst k1) psub pmul n X.

(** ** sympy matrices *)

(** A sympy [Matrix] whose entries are expressions in z. *)
Record spmatrix : Type := mk_sp {
  sp_nrows : nat;
  sp_ncols : nat;
  sp_rows : list (list poly)
}.

Definition sget (S : spmatrix) (i j : nat) : poly :=
  nth j (nth i (sp_rows S) []) [].

Definition sbuild (r c : nat) (f : nat -> nat -> poly) : spmatrix :=
  mk_sp r c (map (fun i => map (f i) (seq 0 c)) (seq 0 r)).

(** [sp.Matrix(m)] of a numpy array. *)
Definition sp_Matrix (X : ndarray) : spmatrix :=
  sbuild (nrows X) (ncols X) (fun i j => pconst (get X i j)).

(** [z * S]. *)
Definition sp_zmul (S : spmatrix) : spmatrix :=
  sbuild (sp_nrows S) (sp_ncols S) (fun i j => pmul pz (sget S i j)).

(** [S - T]. *)
Definition sp_sub (S T : spmatrix) : M spmatrix :=
  if (sp_nrows S =? sp_nrows T) && (sp_ncols S =? sp_ncols T)
  then ret (sbuild (sp_nrows S) (sp_ncols S)
                   (fun i j => psub (sget S i j) (sget T i j)))
  else raise ShapeError.

(** [S.det()]. *)
Definition sp_det (S : spmatrix) : M poly :=
  tell EvDet ;;;
  if sp_nrows S =? sp_ncols S then ret (pdet (sp_nrows S) (sp_rows S))
  else raise NonSquareMatrixError.

(** [sp.solve(zf, z)]. *)
Definition solve (zf : poly) : M (list K) :=
  tell EvSolve ;;; ret (sp_solve zf).

(** ** Chapter_04.zero *)

Definition zero (A B C D : ndarray) : M (list K) :=
  top <- hstack [A; B] ;;
  bot <- hstack [C; D] ;;
  m <- vstack [top; bot] ;;
  let Mx := sp_Matrix m in
  let '(rowsA, colsA) := shape A in
  let '(rowsB, colsB) := shape B in
  let '(rowsC, colsC) := shape C in
  let '(rowsD, colsD) := shape D in
  let p1 := eye rowsA in
  let p2 := zeros rowsB colsB in
  let p3 := zeros rowsC colsC in
  let p4 := zeros rowsD colsD in
  top <- hstack [p1; p2] ;;
  bot <- hstack [p3; p4] ;;
  p <- vstack [top; bot] ;;
  let Ig := sp_Matrix p in
  let zIg := sp_zmul Ig in
  f <- sp_sub zIg Mx ;;
  zf <- sp_det f ;;
  zs <- solve zf ;;
  ret zs.

End Toolkit.

(** ** mvnyquist.py *)

(** Division of scalars, Python's [/]. *)
Class Fractional (K : Type) : Type := {
  kdiv : K -> K -> K
}.

Module Mvnyquist.

Section Script.

Context {F : Type} {num : Numeric F} {frac : Fractional F}.

Local Abbreviation M := (@M F).
Local Abbreviation ndarray := (@ndarray F).

Local Notation "x <- c ;; k" := (bind c (fun x => k))
  (at level 61, c at next level, right associativity).

(** An integer literal as a scalar. *)
Fixpoint kofnat (n : nat) : F :=
  match n with
  | O => k0
  | S n' => kadd (kofnat n') k1
  end.

(** [a * X] for a scalar [a]: every entry is scaled. *)
Definition scale (a : F) (X : ndarray) : ndarray :=
  build (nrows X) (ncols X) (fun i j => kmul a (get X i j)).

(** numpy's broadcasting of one dimension: equal sizes, or one of them 1. *)
Definition broadcast (a b : nat) : option nat :=
  if a =? b then Some a
  else if a =? 1 then Some b
  else if b =? 1 then Some a
  else None.

(** [X + Y] on arrays, with broadcasting. *)
Definition np_add (X Y : ndarray) : M ndarray :=
  match broadcast (nrows X) (nrows Y), broadcast (ncols X) (ncols Y) with
  | Some r, Some c =>
      ret (build r c
             (fun i j =>
                kadd (get X (if nrows X =? 1 then 0 else i)
                            (if ncols X =? 1 then 0 else j))
                     (get Y (if nrows Y =? 1 then 0 else i)
                            (if ncols Y =? 1 then 0 else j))))
  | _, _ => raise ValueError
  end.

(** [numpy.linalg.det(X)]; numpy factorises, which gives the same value
    in exact arithmetic. *)
Definition np_det (X : ndarray) : M F :=
  if nrows X =? ncols X then ret (kdet (nrows X) (rows X))
  else raise LinAlgError.

(** [I = numpy.eye(2, 2)]. *)
Definition I : ndarray := eye 2.

Definition G (s : F) : ndarray :=
  let one := kofnat 1 in
  let two := kofnat 2 in
  scale (kdiv one (kmul (kmul (kadd s one) (kadd s two)) (ksub s one)))
        (array [[kmul (ksub s one) (kadd s two);
                 kmul (ksub s one) (ksub s one)];
                [kmul (kopp (kadd s one)) (kadd s two);
                 kmul (ksub s one) (kadd s one)]]).

Definition K (s : F) : ndarray := I.

(** [image], as a function of the frequencies [alls]: the list of
    det(I + G(s) K(s)). *)
Definition image (alls : list F) : M (list F) :=
  mapM (fun s => GK <- matmul (G s) (K s) ;;
                 L <- np_add I GK ;;
                 np_det L)
       alls.

End Script.

End Mvnyquist.

(** ** Readings of the claims *)

Section Readings.

Context {K : Type} {num : Numeric K} {la : @LinAlg K}.

Local Abbreviation ndarray := (@ndarray K).
Local Abbreviation pyval := (@pyval K).

(** The input pole vector of the left eigenvector in column [i] of [vl]:
    the conjugate transpose of [B] times that column, an array of shape
    (m, 1). *)
Definition input_pole_vector (B vl : ndarray) (i : nat) : ndarray :=
  build (ncols B) 1
        (fun k _ => ksum (fun j => kmul (kconj (get B j k)) (get vl j i))
                         (nrows B)).

(** The output pole vector of the right eigenvector in column [i] of [vr]:
    [C] times that column, each entry rounded to [d] decimals, an array of
    shape (1, p). *)
Definition output_pole_vector (C vr : ndarray) (d i : nat) : ndarray :=
  build 1 (nrows C)
        (fun _ k => karound d (ksum (fun j => kmul (get C k j) (get vr j i))
                                    (ncols C))).

(** Column [j] of [X] as an array of shape (rows, 1). *)
Definition column (X : ndarray) (j : nat) : ndarray :=
  build (nrows X) 1 (fun i _ => get X i j).

(** Both singular-vector factors of [g] have a column to select. *)
Definition svd_has_columns (g : ndarray) : Prop :=
  let '(U, _, V) := svd g in 0 < ncols U /\ 0 < ncols V.

(** The index the code selects in a factor: 0 for a pole, the last column
    otherwise. *)
Definition selected (dir_type : string) (X : ndarray) : nat :=
  if String.eqb dir_type "p" then 0 else ncols X - 1.

(** The epsilon the code adds to a location: the argument for a pole, 0
    otherwise. *)
Definition offset (dir_type : string) (e : K) : K :=
  if String.eqb dir_type "p" then e else k0.

(** Input and output direction at [d]: the selected column of V and of U
    in the decomposition of G at [d] plus the offset. *)
Definition directions (G : K -> ndarray) (dir_type : string) (e d : K)
  : ndarray * ndarray :=
  let '(U, _, V) := svd (G (kadd d (offset dir_type e))) in
  (column V (selected dir_type V), column U (selected dir_type U)).

(** What is shown of a location and its directions. *)
Definition shown (display_type : string) (d : K) (uy : ndarray * ndarray)
  : pyval :=
  if String.eqb display_type "u" then PyArr (fst uy)
  else if String.eqb display_type "y" then PyArr (snd uy)
  else PyTuple d (fst uy) (snd uy).

(** The location an entry of the returned list carries, if it is a
    tuple. *)
Definition pz_location (r : pyval) : option K :=
  match r with
  | PyTuple d _ _ => Some d
  | PyArr _ => None
  end.

(** The points at which a trace evaluates the transfer function. *)
Fixpoint eval_points (t : list (@event K)) : list K :=
  match t with
  | [] => []
  | EvEvalG s :: t' => s :: eval_points t'
  | _ :: t' => eval_points t'
  end.

(** Entry (i, j) of the Rosenbrock matrix [[A, B], [C, D]] for a state
    matrix of size [n]. *)
Definition rosenbrock (n : nat) (A B C D : ndarray) (i j : nat) : K :=
  if i <? n
  then (if j <? n then get A i j else get B i (j - n))
  else (if j <? n then get C (i - n) j else get D (i - n) (j - n)).

(** Entry (i, j) of [[I_n, 0], [0, 0]]. *)
Definition block_identity (n : nat) (i j : nat) : K :=
  if (i =? j) && (i <? n) then k1 else k0.

(** The four blocks can be laid out as the code lays them out: A beside
    B, C beside D, one row of blocks under the other, and the same again
    with an identity of A's row count in place of A. *)
Definition stackable (A B C D : ndarray) : Prop :=
  nrows A = nrows B /\ nrows C = nrows D /\
  ncols A + ncols B = ncols C + ncols D /\ nrows A = ncols A.

(** The rational function (s^2 + 5 s + 7) / ((s + 1) (s + 2)). *)
Definition return_difference {frac : Fractional K} (s : K) : K :=
  let n := Mvnyquist.kofnat in
  kdiv (kadd (kadd (kmul s s) (kmul (n 5) s)) (n 7))
       (kmul (kadd s (n 1)) (kadd s (n 2))).

(** The rows of the pencil r Ig - M, of size [s]. *)
Definition pencil_at (n s : nat) (A B C D : ndarray) (r : K) : list (list K) :=
  rows (build s s (fun i j => ksub (kmul r (block_identity n i j))
                                   (rosenbrock n A B C D i j))).

End Readings.

(** ** Laws of exact scalars *)

(** Python's [==] on scalars decides equality. *)
Class ExactEq (K : Type) {num : Numeric K} : Prop := {
  keqb_eq : forall x y : K, keqb x y = true <-> x = y
}.

(** Exact arithmetic: the scalars form a commutative ring. *)
Class ExactRing (K : Type) {num : Numeric K} : Prop := {
  k_ring : ring_theory k0 k1 kadd kmul ksub kopp (@eq K)
}.

(** Conjugate, squared modulus, square root and rounding of exact
    scalars keep 0, and rounding commutes with the sign. *)
Class ExactModulus (K : Type) {num : Numeric K} : Prop := {
  kconj_0 : kconj k0 = k0;
  ksqabs_0 : ksqabs k0 = k0;
  ksqrt_0 : ksqrt k0 = k0;
  karound_0 : forall d : nat, karound d k0 = k0;
  karound_opp : forall (d : nat) (x : K), karound d (kopp x) = kopp (karound d x)
}.

(** Exact arithmetic with division: the scalars form a field, 1 / x
    being the inverse. *)
Class ExactField (K : Type) {num : Numeric K} {frac : Fractional K} : Prop := {
  k_field : field_theory k0 k1 kadd kmul ksub kopp kdiv
                         (fun x => kdiv k1 x) (@eq K)
}.

Arguments ExactEq K {num}.
Arguments ExactField K {num frac}.
Arguments ExactRing K {num}.
Arguments ExactModulus K {num}.

(** ** An exact instance: integer entries

    Integers as scalars, and providers that are right on the arrays the
    examples below use: diagonal state matrices with distinct entries
    (eigenvectors are the unit vectors), non-negative diagonal transfer
    matrices (singular vectors are the unit vectors), and integer roots. *)
Module IntModel.

#[export] Instance Z_numeric : Numeric Z := {|
  k0 := 0%Z;
  k1 := 1%Z;
  kadd := Z.add;
  kmul := Z.mul;
  ksub := Z.sub;
  kopp := Z.opp;
  kconj := fun x => x;
  ksqabs := fun x => (x * x)%Z;
  ksqrt := Z.sqrt;
  karound := fun _ x => x;
  keqb := Z.eqb
|}.

(** A bound on the modulus of the integer roots of [p]. *)
Definition root_bound (p : list Z) : Z :=
  fold_right (fun c acc => (Z.abs c + acc)%Z) 0%Z p.

(** The integer roots of [p] within its bound, in increasing order. *)
Definition int_roots (p : list Z) : list Z :=
  let b := root_bound p in
  filter (fun r => Z.eqb (peval p r) 0)
         (map (fun k => (Z.of_nat k - b)%Z) (seq 0 (Z.to_nat (2 * b + 1)))).

#[export] Instance diag_linalg : LinAlg := {|
  eig_vl := fun A => eye (nrows A);
  eig_vr := fun A => eye (nrows A);
  svd := fun g => (eye (nrows g), g, eye (ncols g));
  sp_solve := int_roots
|}.

#[export] Instance Z_eq : ExactEq Z.
Proof. split. exact Z.eqb_eq. Qed.

#[export] Instance Z_ring : ExactRing Z.
Proof. split. exact InitialRing.Zth. Qed.

#[export] Instance Z_modulus : ExactModulus Z.
Proof. split; try reflexivity. Qed.

(** The arrays of the examples. *)
Definition A_diag : ndarray := array [[1; 0]; [0; 2]]%Z.
Definition B_ones : ndarray := array [[1]; [1]]%Z.
Definition C_diff : ndarray := array [[1; -1]]%Z.
Definition C_ones : ndarray := array [[1; 1]]%Z.
Definition A_shift : ndarray := array [[0; 1]; [0; 0]]%Z.
Definition B_last : ndarray := array [[0]; [1]]%Z.

(** The first order lag 1/(s+1) with direct feed-through 1, and the same
    state with two inputs. *)
Definition A_lag : ndarray := array [[-1]]%Z.
Definition B_lag : ndarray := array [[1]]%Z.
Definition C_lag : ndarray := array [[1]]%Z.
Definition D_lag : ndarray := array [[1]]%Z.
Definition B_two : ndarray := array [[1; 1]]%Z.
Definition D_two : ndarray := array [[0; 0]]%Z.

(** Blocks that break the shape invariants. *)
Definition A_one : ndarray := array [[1]]%Z.
Definition B_tall : ndarray := array [[1]; [1]]%Z.
Definition C_narrow : ndarray := array [[1]]%Z.

(** A diagonal transfer matrix. *)
Definition G_diag (s : Z) : ndarray := array [[s; 0]; [0; 3]]%Z.

(** A state matrix that is not square. *)
Definition A_wide : ndarray := array [[1; 2]]%Z.

(** An input matrix that misses the second state, an output matrix that
    misses it, and two outputs that cancel. *)
Definition B_first : ndarray := array [[1]; [0]]%Z.
Definition C_first : ndarray := array [[1; 0]]%Z.
Definition C_cancel : ndarray := array [[1; 1]; [-1; -1]]%Z.

(** Arrays of shapes (2, 0), (0, 2) and (0, 0). *)
Definition B_none : @ndarray Z := mk_nd 2 0 [[]; []].
Definition C_none : @ndarray Z := mk_nd 0 2 [].
Definition D_none : @ndarray Z := mk_nd 0 0 [].

(** A scalar transfer function, and a transfer function that gives an
    empty array at 2. *)
Definition G_scalar (s : Z) : ndarray := array [[s]]%Z.
Definition G_gap (s : Z) : ndarray :=
  if (s =? 2)%Z then array [] else G_diag s.

End IntModel.

(** ** An exact instance with division: rational entries *)

Module RatModel.

Definition Qc : Type := Qcanon.Qc.

Definition of_Z (z : Z) : Qc := Qcanon.Q2Qc (QArith_base.inject_Z z).

(** The square root, exact on the squares of rationals. *)
Definition Qc_sqrt (x : Qc) : Qc :=
  Qcanon.Q2Qc (QArith_base.Qmake (Z.sqrt (QArith_base.Qnum (Qcanon.this x)))
                                 (Pos.sqrt (QArith_base.Qden (Qcanon.this x)))).

(** Rounding to [d] decimals, halves to the even neighbour. *)
Definition Qc_around (d : nat) (x : Qc) : Qc :=
  let scale := QArith_base.inject_Z (10 ^ Z.of_nat d) in
  let y := QArith_base.Qmult (Qcanon.this x) scale in
  let twice := QArith_base.Qmult (QArith_base.inject_Z 2) y in
  let f := Qround.Qfloor y in
  let half := (Qround.Qfloor twice - 2 * f)%Z in
  let tie := QArith_base.Qeq_bool twice (QArith_base.inject_Z (2 * f + 1)) in
  let n := if tie then (if Z.even f then f else f + 1)%Z else (f + half)%Z in
  Qcanon.Q2Qc (QArith_base.Qdiv (QArith_base.inject_Z n) scale).

#[export] Instance Qc_numeric : Numeric Qc := {|
  k0 := of_Z 0;
  k1 := of_Z 1;
  kadd := Qcanon.Qcplus;
  kmul := Qcanon.Qcmult;
  ksub := Qcanon.Qcminus;
  kopp := Qcanon.Qcopp;
  kconj := fun x => x;
  ksqabs := fun x => Qcanon.Qcmult x x;
  ksqrt := Qc_sqrt;
  karound := Qc_around;
  keqb := Qcanon.Qc_eq_bool
|}.

#[export] Instance Qc_fractional : Fractional Qc := {|
  kdiv := Qcanon.Qcdiv
|}.

#[export] Instance Qc_field : ExactField Qc.
Proof.
  split. destruct Qcanon.Qcft as [HR H10 Hdiv Hinv].
  split.
  - exact HR.
  - exact H10.
  - intros p q. cbn. unfold Qcanon.Qcdiv at 2.
    rewrite Qcanon.Qcmult_1_l. apply Hdiv.
  - intros p Hp. cbn. unfold Qcanon.Qcdiv.
    rewrite Qcanon.Qcmult_1_l. now apply Hinv.
Qed.

(** Two frequencies. *)
Definition alls_two : list Qc := [of_Z 0; of_Z 2].

End RatModel.

(** ** Facts about the monad and the arrays *)

Section Facts.

Context {K : Type} {num : Numeric K} {la : @LinAlg K}.

Local Abbreviation M := (@M K).
Local Abbreviation event := (@event K).
Local Abbreviation ndarray := (@ndarray K).
Local Abbreviation spmatrix := (@spmatrix K).
Local Abbreviation pyval := (@pyval K).
Local Abbreviation poly := (@poly K).

Lemma bind_ret_l X Y (x : X) (f : X -> M Y) : bind (ret x) f = f x.
Proof. unfold bind, ret. destruct (f x); reflexivity. Qed.

Lemma bind_ok X Y (t : list event) (x : X) (f : X -> M Y) :
  bind (t, Ok x) f = (t ++ trace (f x), outcome (f x)).
Proof. unfold bind, trace, outcome. destruct (f x); reflexivity. Qed.

Lemma mapM_ret X Y (f : X -> M Y) (g : X -> Y) (l : list X) :
  (forall x, In x l -> f x = ret (g x)) -> mapM f l = ret (map g l).
Proof.
  induction l as [|x l IH]; intros Hf; simpl.
  - reflexivity.
  - rewrite (Hf x (or_introl eq_refl)), bind_ret_l.
    rewrite IH by (intros y Hy; apply Hf; right; exact Hy).
    now rewrite bind_ret_l.
Qed.

Lemma nth_map_seq X (f : nat -> X) (n i : nat) (d : X) :
  i < n -> nth i (map f (seq 0 n)) d = f i.
Proof.
  intros Hi. rewrite (nth_indep _ d (f 0)) by (now rewrite length_map, length_seq).
  rewrite map_nth, seq_nth by exact Hi. reflexivity.
Qed.

Lemma get_build (r c : nat) (f : nat -> nat -> K) (i j : nat) :
  i < r -> j < c -> get (build r c f) i j = f i j.
Proof.
  intros Hi Hj. unfold get, build; simpl.
  rewrite nth_map_seq by exact Hi. now rewrite nth_map_seq.
Qed.

Lemma build_ext (r c : nat) (f g : nat -> nat -> K) :
  (forall i j, i < r -> j < c -> f i j = g i j) -> build r c f = build r c g.
Proof.
  intros Hfg. unfold build. f_equal.
  apply map_ext_in. intros i Hi. apply in_seq in Hi.
  apply map_ext_in. intros j Hj. apply in_seq in Hj.
  apply Hfg; lia.
Qed.

Lemma ksum_ext (f g : nat -> K) (n : nat) :
  (forall k, k < n -> f k = g k) -> ksum f n = ksum g n.
Proof.
  intros Hfg. unfold ksum.
  assert (Hl : forall k, In k (seq 0 n) -> f k = g k)
    by (intros k Hk; apply in_seq in Hk; apply Hfg; lia).
  clear Hfg. revert Hl. generalize (seq 0 n) as l. generalize k0 as a.
  intros a l. revert a.
  induction l as [|k l IH]; intros a Hl; simpl.
  - reflexivity.
  - rewrite (Hl k (or_introl eq_refl)). apply IH.
    intros k' Hk'. apply Hl. right. exact Hk'.
Qed.

Lemma nrows_mpow (A : ndarray) (k : nat) : nrows (mpow A k) = nrows A.
Proof. induction k as [|k IH]; simpl; auto. Qed.

Lemma ncols_mpow (A : ndarray) (k : nat) :
  nrows A = ncols A -> ncols (mpow A k) = ncols A.
Proof. intros Hsq. destruct k; simpl; auto. Qed.

Lemma total_const (f : ndarray -> nat) (c : nat) (ms : list ndarray) :
  Forall (fun X => f X = c) ms -> total f ms = length ms * c.
Proof.
  induction 1 as [|X ms HX _ IH]; simpl.
  - reflexivity.
  - fold (total f ms). rewrite HX, IH. reflexivity.
Qed.

(** In a row of blocks of equal width [c], column [k * c + j] is column
    [j] of block [k]. *)
Lemma hget_block (c : nat) (ms : list ndarray) :
  Forall (fun X => ncols X = c) ms ->
  forall k i j d, k < length ms -> j < c ->
    hget ms i (k * c + j) = get (nth k ms d) i j.
Proof.
  induction 1 as [|X ms HX _ IH]; intros k i j d Hk Hj; simpl in *.
  - lia.
  - rewrite HX. destruct k as [|k]; simpl.
    + apply Nat.ltb_lt in Hj. now rewrite Hj.
    + assert (Hge : (c + k * c + j <? c) = false) by (apply Nat.ltb_ge; lia).
      rewrite Hge. replace (c + k * c + j - c) with (k * c + j) by lia.
      apply IH; lia.
Qed.

Lemma hstack_same_rows (r : nat) (ms : list ndarray) :
  ms <> [] -> Forall (fun X => nrows X = r) ms ->
  hstack ms = ret (build r (total ncols ms) (hget ms)).
Proof.
  intros Hne Hr. destruct ms as [|X ms']; [congruence|].
  unfold hstack. inversion Hr as [|? ? HX Hrest]; subst.
  assert (Hall : forallb (fun Y => nrows Y =? nrows X) ms' = true).
  { apply forallb_forall. intros Y HY. apply Nat.eqb_eq.
    rewrite Forall_forall in Hrest. now apply Hrest. }
  now rewrite Hall.
Qed.

Lemma vstack_same_cols (c : nat) (ms : list ndarray) :
  ms <> [] -> Forall (fun X => ncols X = c) ms ->
  vstack ms = ret (build (total nrows ms) c (vget ms)).
Proof.
  intros Hne Hc. destruct ms as [|X ms']; [congruence|].
  unfold vstack. inversion Hc as [|? ? HX Hrest]; subst.
  assert (Hall : forallb (fun Y => ncols Y =? ncols X) ms' = true).
  { apply forallb_forall. intros Y HY. apply Nat.eqb_eq.
    rewrite Forall_forall in Hrest. now apply Hrest. }
  now rewrite Hall.
Qed.

Lemma matmul_aligned (X Y : ndarray) :
  ncols X = nrows Y -> matmul X Y = ret (mmul X Y).
Proof. intros H. unfold matmul. apply Nat.eqb_eq in H. now rewrite H. Qed.

Lemma matrix_power_square (X : ndarray) (n : nat) :
  nrows X = ncols X -> matrix_power X n = ret (mpow X n).
Proof. intros H. unfold matrix_power. apply Nat.eqb_eq in H. now rewrite H. Qed.

Lemma seq_0_nonempty (n : nat) : 0 < n -> seq 0 n <> [].
Proof. destruct n; simpl; [lia | discriminate]. Qed.

(** The blocks A^k B of the controllability matrix. *)
Lemma c_plus_run (A B : ndarray) (n : nat) :
  nrows A = n -> ncols A = n -> nrows B = n ->
  mapM (fun k => bind (matrix_power A k) (fun An => matmul An B)) (range n)
  = ret (map (fun k => mmul (mpow A k) B) (seq 0 n)).
Proof.
  intros HrA HcA HrB. apply mapM_ret. intros k _.
  rewrite matrix_power_square by congruence. rewrite bind_ret_l.
  apply matmul_aligned. rewrite ncols_mpow; congruence.
Qed.

(** The blocks C A^k of the observability matrix. *)
Lemma o_plus_run (A C : ndarray) (n : nat) :
  nrows A = n -> ncols A = n -> ncols C = n ->
  mapM (fun k => bind (matrix_power A k) (fun An => matmul C An)) (range n)
  = ret (map (fun k => mmul C (mpow A k)) (seq 0 n)).
Proof.
  intros HrA HcA HcC. apply mapM_ret. intros k _.
  rewrite matrix_power_square by congruence. rewrite bind_ret_l.
  apply matmul_aligned. rewrite nrows_mpow; congruence.
Qed.

(** The product B.H * vli.T of the loop is the input pole vector. *)
Lemma u_p_run (B vl : ndarray) (n : nat) :
  nrows B = n -> nrows vl = n ->
  mapM (fun i => matmul (ctranspose B) (transpose (asmatrix1d (col1d vl i))))
       (range (ncols vl))
  = ret (map (input_pole_vector B vl) (seq 0 (ncols vl))).
Proof.
  intros HrB Hrvl. apply mapM_ret. intros i _.
  rewrite matmul_aligned
    by (simpl; unfold col1d; rewrite length_map, length_seq; congruence).
  f_equal. unfold mmul, input_pole_vector; simpl.
  apply build_ext. intros k j Hk Hj. assert (j = 0) by lia; subst j.
  apply ksum_ext. intros r Hr.
  unfold ctranspose, transpose. rewrite !get_build; try lia.
  - f_equal. unfold asmatrix1d, get, col1d; simpl.
    rewrite nth_map_seq by lia. reflexivity.
  - simpl. unfold col1d. rewrite length_map, length_seq. lia.
  - simpl. lia.
Qed.

Lemma eig_left_square (A : ndarray) :
  nrows A = ncols A -> eig_left A = ([EvEig], Ok (eig_vl A)).
Proof. intros H. unfold eig_left. apply Nat.eqb_eq in H. simpl. now rewrite H. Qed.

Lemma eig_right_square (A : ndarray) :
  nrows A = ncols A -> eig_right A = ([EvEig], Ok (eig_vr A)).
Proof. intros H. unfold eig_right. apply Nat.eqb_eq in H. simpl. now rewrite H. Qed.

(** What [state_controllability] returns on a system of the right shapes. *)
Lemma state_controllability_run (A B : ndarray) (n : nat) :
  0 < n -> nrows A = n -> ncols A = n -> nrows B = n ->
  shape (eig_vl A) = (n, n) ->
  let u_p := map (input_pole_vector B (eig_vl A)) (seq 0 n) in
  let c_plus := map (fun k => mmul (mpow A k) B) (seq 0 n) in
  state_controllability A B
  = ([EvEig],
     Ok (negb (any (fun x => keqb (norm x) k0) u_p), u_p,
         build n (total ncols c_plus) (hget c_plus))).
Proof.
  intros Hn HrA HcA HrB Hvl u_p c_plus. unfold shape in Hvl.
  injection Hvl as Hrvl Hcvl.
  unfold state_controllability, asmatrix.
  rewrite eig_left_square by congruence. rewrite bind_ok.
  rewrite (u_p_run B (eig_vl A) (n := n)) by assumption.
  rewrite Hcvl, bind_ret_l. rewrite HcA.
  rewrite (c_plus_run A B (n := n)) by assumption. rewrite bind_ret_l.
  rewrite (hstack_same_rows (r := n)).
  - rewrite bind_ret_l. reflexivity.
  - intros Hnil. apply map_eq_nil in Hnil. now apply seq_0_nonempty in Hnil.
  - apply Forall_forall. intros X HX. apply in_map_iff in HX.
    destruct HX as (k & <- & _). simpl. now rewrite nrows_mpow.
Qed.

Lemma mapM_map_ret X Y Z (h : Z -> X) (f : X -> M Y) (g : Z -> Y) (l : list Z) :
  (forall z, In z l -> f (h z) = ret (g z)) ->
  mapM f (map h l) = ret (map g l).
Proof.
  induction l as [|z l IH]; intros Hf; simpl.
  - reflexivity.
  - rewrite (Hf z (or_introl eq_refl)), bind_ret_l.
    rewrite IH by (intros y Hy; apply Hf; right; exact Hy).
    now rewrite bind_ret_l.
Qed.

(** The rounded product C.dot(x) of the comprehension is the output pole
    vector. *)
Lemma out_pole_vec_run (C vr : ndarray) (n d : nat) :
  ncols C = n -> nrows vr = n ->
  mapM (fun x => bind (dot1d C x) (fun y => ret (around y d)))
       (iter_rows (transpose vr))
  = ret (map (output_pole_vector C vr d) (seq 0 (ncols vr))).
Proof.
  intros HcC Hrvr. unfold iter_rows. simpl.
  apply mapM_map_ret. intros i Hi. apply in_seq in Hi.
  unfold dot1d. rewrite length_map, length_seq.
  assert (Hal : (ncols C =? nrows vr) = true) by (apply Nat.eqb_eq; congruence).
  rewrite Hal, bind_ret_l. f_equal.
  unfold around, output_pole_vector; simpl.
  apply build_ext. intros r k Hr Hk. assert (r = 0) by lia; subst r.
  rewrite get_build by lia. f_equal.
  apply ksum_ext. intros j Hj. f_equal.
  rewrite nth_map_seq by lia.
  unfold transpose. rewrite get_build by lia. reflexivity.
Qed.

(** What [state_observability] returns on a system of the right shapes. *)
Lemma state_observability_run (A C : ndarray) (n : nat) :
  0 < n -> nrows A = n -> ncols A = n -> ncols C = n ->
  shape (eig_vr A) = (n, n) ->
  let y_p := map (output_pole_vector C (eig_vr A) 3) (seq 0 n) in
  let o_plus := map (fun k => mmul C (mpow A k)) (seq 0 n) in
  state_observability A C
  = ([EvEig],
     Ok (negb (any (fun x => keqb (npsum x) k0) y_p), y_p,
         build (total nrows o_plus) n (vget o_plus))).
Proof.
  intros Hn HrA HcA HcC Hvr y_p o_plus. unfold shape in Hvr.
  injection Hvr as Hrvr Hcvr.
  unfold state_observability, asmatrix.
  rewrite eig_right_square by congruence. rewrite bind_ok.
  rewrite (out_pole_vec_run C (eig_vr A) (n := n)) by assumption.
  rewrite Hcvr, bind_ret_l. rewrite HcA.
  rewrite (o_plus_run A C (n := n)) by assumption. rewrite bind_ret_l.
  rewrite (vstack_same_cols (c := n)).
  - rewrite bind_ret_l. reflexivity.
  - intros Hnil. apply map_eq_nil in Hnil. now apply seq_0_nonempty in Hnil.
  - apply Forall_forall. intros X HX. apply in_map_iff in HX.
    destruct HX as (k & <- & _). simpl. rewrite ncols_mpow; congruence.
Qed.

(** Python's [not any(test(x) == 0.0 for x in l)]. *)
Lemma not_any_zero {eqd : ExactEq K} (f : ndarray -> K) (l : list ndarray) :
  negb (any (fun x => keqb (f x) k0) l) = true <->
  Forall (fun x => f x <> k0) l.
Proof.
  unfold any. rewrite negb_true_iff. split.
  - intros Hno. apply Forall_forall. intros x Hx Hz.
    assert (Hex : existsb (fun x => keqb (f x) k0) l = true).
    { apply existsb_exists. exists x. split; [exact Hx|]. now apply keqb_eq. }
    congruence.
  - intros Hall. destruct (existsb _ l) eqn:Hex; [|reflexivity].
    apply existsb_exists in Hex. destruct Hex as (x & Hx & Hz).
    apply keqb_eq in Hz. rewrite Forall_forall in Hall.
    now apply Hall in Hx.
Qed.

Lemma any_zero {eqd : ExactEq K} (f : ndarray -> K) (l : list ndarray) :
  negb (any (fun x => keqb (f x) k0) l) = false <->
  Exists (fun x => f x = k0) l.
Proof.
  unfold any. rewrite negb_false_iff, existsb_exists, Exists_exists.
  split; intros (x & Hx & Hz); exists x; (split; [exact Hx|]);
    now apply keqb_eq.
Qed.

Lemma mapM_run X Y (f : X -> M Y) (t : X -> list event) (g : X -> Y)
    (l : list X) :
  (forall x, In x l -> f x = (t x, Ok (g x))) ->
  mapM f l = (concat (map t l), Ok (map g l)).
Proof.
  induction l as [|x l IH]; intros Hf; simpl.
  - reflexivity.
  - rewrite (Hf x (or_introl eq_refl)), bind_ok.
    rewrite IH by (intros y Hy; apply Hf; right; exact Hy).
    simpl. now rewrite app_nil_r.
Qed.

Lemma getcol_first (X : ndarray) :
  0 < ncols X -> getcol X 0 = ret (column X 0).
Proof.
  intros Hc. unfold getcol. simpl.
  assert (H : (0 <? Z.of_nat (ncols X))%Z = true) by (apply Z.ltb_lt; lia).
  now rewrite H.
Qed.

Lemma getcol_last (X : ndarray) :
  0 < ncols X -> getcol X (-1) = ret (column X (ncols X - 1)).
Proof.
  intros Hc. unfold getcol.
  change (-1 <? 0)%Z with true. cbv iota zeta.
  destruct (_ && _) eqn:H.
  - unfold column.
    replace (Z.to_nat (-1 + Z.of_nat (ncols X))) with (ncols X - 1) by lia.
    reflexivity.
  - apply andb_false_iff in H.
    destruct H as [H|H]; [apply Z.leb_gt in H | apply Z.ltb_ge in H]; lia.
Qed.

(** The index and the epsilon chosen by the test on [dir_type]. *)
Lemma pole_zero_directions_unfold (G : K -> ndarray) (vec : list K)
    (dir_type display_type : string) (e : K) :
  pole_zero_directions G vec dir_type display_type e
  = mapM (pz_dir_entry G (if String.eqb dir_type "p" then 0%Z else (-1)%Z)
                       (offset dir_type e) display_type) vec.
Proof.
  unfold pole_zero_directions, offset.
  destruct (String.eqb dir_type "p"); reflexivity.
Qed.

(** One pass of the loop when the factors have columns. *)
Lemma pz_dir_entry_run (G : K -> ndarray) (dir_type display_type : string)
    (e d : K) :
  svd_has_columns (G (kadd d (offset dir_type e))) ->
  pz_dir_entry G (if String.eqb dir_type "p" then 0%Z else (-1)%Z)
               (offset dir_type e) display_type d
  = ([EvEvalG (kadd d (offset dir_type e)); EvSVD],
     Ok (shown display_type d (directions G dir_type e d))).
Proof.
  unfold svd_has_columns, pz_dir_entry, directions, shown, selected, call_G, SVD.
  simpl.
  destruct (svd (G (kadd d (offset dir_type e)))) as [[U S] V].
  intros [HU HV].
  destruct (String.eqb dir_type "p").
  - rewrite !getcol_first by assumption. simpl.
    destruct (String.eqb display_type "u"); [reflexivity|].
    destruct (String.eqb display_type "y"); reflexivity.
  - rewrite !getcol_last by assumption. simpl.
    destruct (String.eqb display_type "u"); [reflexivity|].
    destruct (String.eqb display_type "y"); reflexivity.
Qed.

(** What [pole_zero_directions] returns when the factors have columns. *)
Lemma pole_zero_directions_run (G : K -> ndarray) (vec : list K)
    (dir_type display_type : string) (e : K) :
  Forall (fun d => svd_has_columns (G (kadd d (offset dir_type e)))) vec ->
  pole_zero_directions G vec dir_type display_type e
  = (concat (map (fun d => [EvEvalG (kadd d (offset dir_type e)); EvSVD]) vec),
     Ok (map (fun d => shown display_type d (directions G dir_type e d)) vec)).
Proof.
  intros Hsvd. rewrite pole_zero_directions_unfold.
  apply mapM_run. intros d Hd. apply pz_dir_entry_run.
  rewrite Forall_forall in Hsvd. now apply Hsvd.
Qed.

Lemma eval_points_app (t t' : list event) :
  eval_points (t ++ t') = eval_points t ++ eval_points t'.
Proof.
  induction t as [|ev t IH]; simpl.
  - reflexivity.
  - destruct ev; simpl; now rewrite IH.
Qed.

(** Whatever happens after them, one pass of the loop makes exactly one
    call of G, at [d + e], and one call of the SVD. *)
Lemma pz_dir_entry_trace (G : K -> ndarray) (dt : Z) (e : K)
    (display_type : string) (d : K) :
  trace (pz_dir_entry G dt e display_type d) = [EvEvalG (kadd d e); EvSVD].
Proof.
  unfold pz_dir_entry, call_G, SVD. simpl.
  destruct (svd (G (kadd d e))) as [[U S] V].
  unfold getcol.
  destruct (_ && _); [|reflexivity].
  rewrite bind_ret_l.
  destruct (_ && _); [|reflexivity].
  rewrite bind_ret_l.
  destruct (String.eqb display_type "u"); [reflexivity|].
  destruct (String.eqb display_type "y"); reflexivity.
Qed.

(** The loop evaluates G at [d + e] for the locations it reaches, in
    order, and it reaches all of them when it returns. *)
Lemma pz_loop_evaluations (G : K -> ndarray) (dt : Z) (e : K)
    (display_type : string) (vec : list K) :
  exists k, k <= length vec /\
    eval_points (trace (mapM (pz_dir_entry G dt e display_type) vec))
    = map (fun d => kadd d e) (firstn k vec) /\
    (forall r, outcome (mapM (pz_dir_entry G dt e display_type) vec) = Ok r ->
               k = length vec).
Proof.
  induction vec as [|d vec (k & Hk & Hpts & Hall)].
  - exists 0. simpl. repeat split; auto.
  - simpl mapM.
    pose proof (pz_dir_entry_trace G dt e display_type d) as Htr.
    destruct (pz_dir_entry G dt e display_type d) as [td [y|ex]];
      unfold trace in Htr; simpl in Htr; subst td.
    + rewrite bind_ok.
      destruct (mapM (pz_dir_entry G dt e display_type) vec)
        as [tl [ys|el]] eqn:Hloop.
      * exists (S k). rewrite bind_ok. unfold trace, outcome in *; simpl in *.
        rewrite app_nil_r, Hpts. repeat split; [lia|].
        intros r _. f_equal. now apply (Hall ys).
      * exists (S k). unfold trace, outcome in *; simpl in *.
        rewrite Hpts. repeat split; [lia | discriminate].
    + exists 1. unfold trace, outcome; simpl.
      repeat split; [lia | discriminate].
Qed.

Lemma mapM_length X Y (f : X -> M Y) (l : list X) (t : list event)
    (r : list Y) :
  mapM f l = (t, Ok r) -> length r = length l.
Proof.
  revert t r. induction l as [|x l IH]; intros t r; simpl.
  - unfold ret. intros H. injection H as _ <-. reflexivity.
  - destruct (f x) as [tx [y|ex]]; [|discriminate].
    rewrite bind_ok.
    destruct (mapM f l) as [tl [ys|el]] eqn:Hl; [|discriminate].
    rewrite bind_ok. simpl. intros H. injection H as _ <-. simpl.
    f_equal. now apply (IH tl).
Qed.

Lemma hstack_rows_differ (X Y : ndarray) :
  nrows Y <> nrows X -> hstack [X; Y] = raise ValueError.
Proof.
  intros H. unfold hstack. simpl. apply Nat.eqb_neq in H. now rewrite H.
Qed.

Lemma vstack_cols_differ (X Y : ndarray) :
  ncols Y <> ncols X -> vstack [X; Y] = raise ValueError.
Proof.
  intros H. unfold vstack. simpl. apply Nat.eqb_neq in H. now rewrite H.
Qed.

Lemma hstack_pair (X Y : ndarray) :
  nrows Y = nrows X ->
  hstack [X; Y] = ret (build (nrows X) (ncols X + (ncols Y + 0)) (hget [X; Y])).
Proof.
  intros H. unfold hstack. simpl. apply Nat.eqb_eq in H. now rewrite H.
Qed.

Lemma vstack_pair (X Y : ndarray) :
  ncols Y = ncols X ->
  vstack [X; Y] = ret (build (nrows X + (nrows Y + 0)) (ncols X) (vget [X; Y])).
Proof.
  intros H. unfold vstack. simpl. apply Nat.eqb_eq in H. now rewrite H.
Qed.

(** ** The claims *)

(** C1. On a square A of size n >= 1 and a B with n rows,
    [state_controllability] calls the eigen-decomposition once and returns;
    its second component holds one input pole vector per column of the
    matrix of left eigenvectors, each the conjugate transpose of B times
    that eigenvector; its first component is True if and only if no input
    pole vector has a Euclidean norm equal to 0.0, compared exactly. *)
Theorem state_controllability_decision {eqd : ExactEq K}
    (A B : ndarray) (n m : nat) :
  0 < n -> shape A = (n, n) -> shape B = (n, m) ->
  shape (eig_vl A) = (n, n) ->
  exists state_control u_p control_matrix,
    state_controllability A B
    = ([EvEig], Ok (state_control, u_p, control_matrix)) /\
    u_p = map (input_pole_vector B (eig_vl A)) (seq 0 n) /\
    (state_control = true <-> Forall (fun u => norm u <> k0) u_p).
Proof.
  intros Hn HA HB Hvl. injection HA as HrA HcA. injection HB as HrB HcB.
  eexists _, _, _. split; [|split].
  - apply (state_controllability_run A B (n := n)); assumption.
  - reflexivity.
  - apply not_any_zero.
Qed.

(** C2. On a square A of size n >= 1 and a C with n columns,
    [state_observability] calls the eigen-decomposition once and returns;
    its second component holds, for each column of the matrix of right
    eigenvectors, C times that eigenvector rounded to 3 decimals; its first
    component is False if and only if the entries of some output pole vector
    sum to exactly 0.0. *)
Theorem state_observability_decision {eqd : ExactEq K}
    (A C : ndarray) (n p : nat) :
  0 < n -> shape A = (n, n) -> shape C = (p, n) ->
  shape (eig_vr A) = (n, n) ->
  exists state_obsr out_pole_vec observe_matrix,
    state_observability A C
    = ([EvEig], Ok (state_obsr, out_pole_vec, observe_matrix)) /\
    out_pole_vec = map (output_pole_vector C (eig_vr A) 3) (seq 0 n) /\
    (state_obsr = false <-> Exists (fun y => npsum y = k0) out_pole_vec).
Proof.
  intros Hn HA HC Hvr. injection HA as HrA HcA. injection HC as HrC HcC.
  eexists _, _, _. split; [|split].
  - apply (state_observability_run A C (n := n)); assumption.
  - reflexivity.
  - apply any_zero.
Qed.

(** C8. When both analyses return, [is_min_realisation] returns the
    conjunction of their two booleans, so True if and only if both are
    True; it runs the observability analysis first and adds nothing of its
    own. *)
Theorem is_min_realisation_conjunction (A B C : ndarray)
    (t1 t2 : list event) (state_control state_obsr : bool)
    (in_pole_vec out_pole_vec : list ndarray)
    (control_matrix observe_matrix : ndarray) :
  state_controllability A B
  = (t1, Ok (state_control, in_pole_vec, control_matrix)) ->
  state_observability A C
  = (t2, Ok (state_obsr, out_pole_vec, observe_matrix)) ->
  is_min_realisation A B C = (t2 ++ t1, Ok (state_control && state_obsr)) /\
  (outcome (is_min_realisation A B C) = Ok true <->
   state_control = true /\ state_obsr = true).
Proof.
  intros Hc Ho.
  assert (Hrun : is_min_realisation A B C
                 = (t2 ++ t1, Ok (state_control && state_obsr))).
  { unfold is_min_realisation. rewrite Ho, bind_ok. rewrite Hc, bind_ok.
    simpl. now rewrite app_nil_r. }
  split; [exact Hrun|].
  rewrite Hrun. unfold outcome; simpl. rewrite <- andb_true_iff.
  split; [intros H; now injection H | intros ->; reflexivity].
Qed.

(** C5. At every location the matrix G(evaluation point) goes through the
    SVD; for dir_type 'p' the entry is made of column 0 of V (input
    direction) and column 0 of U (output direction), for dir_type 'z' of
    the last column of V and the last column of U. *)
Theorem pole_zero_directions_columns (G : K -> ndarray) (vec : list K)
    (display_type : string) (e : K) :
  (Forall (fun d => svd_has_columns (G (kadd d e))) vec ->
   pole_zero_directions G vec "p" display_type e
   = (concat (map (fun d => [EvEvalG (kadd d e); EvSVD]) vec),
      Ok (map (fun d => let '(U, _, V) := svd (G (kadd d e)) in
                        shown display_type d (column V 0, column U 0))
              vec)))
  /\
  (Forall (fun d => svd_has_columns (G (kadd d k0))) vec ->
   pole_zero_directions G vec "z" display_type e
   = (concat (map (fun d => [EvEvalG (kadd d k0); EvSVD]) vec),
      Ok (map (fun d => let '(U, _, V) := svd (G (kadd d k0)) in
                        shown display_type d
                              (column V (ncols V - 1), column U (ncols U - 1)))
              vec))).
Proof.
  split; intros Hsvd.
  - rewrite (pole_zero_directions_run G "p" display_type e) by exact Hsvd.
    f_equal. f_equal. apply map_ext. intros d.
    unfold directions, selected, offset; simpl.
    destruct (svd (G (kadd d e))) as [[U S] V]. reflexivity.
  - rewrite (pole_zero_directions_run G "z" display_type e) by exact Hsvd.
    f_equal. f_equal. apply map_ext. intros d.
    unfold directions, selected, offset; simpl.
    destruct (svd (G (kadd d k0))) as [[U S] V]. reflexivity.
Qed.

(** C6. Whatever display_type and dir_type are, a call that finds columns
    in the SVD factors returns a list as long as the location list, whose
    entry i is what the display mode shows of location i and its
    directions: the input direction for 'u', the output direction for 'y',
    the triple otherwise; and any call that returns at all returns as many
    entries as there are locations. *)
Theorem pole_zero_directions_length_order (G : K -> ndarray) (vec : list K)
    (dir_type display_type : string) (e : K) :
  (Forall (fun d => svd_has_columns (G (kadd d (offset dir_type e)))) vec ->
   exists t pz_dir,
     pole_zero_directions G vec dir_type display_type e = (t, Ok pz_dir) /\
     length pz_dir = length vec /\
     forall i d, nth_error vec i = Some d ->
       exists u y, directions G dir_type e d = (u, y) /\
         nth_error pz_dir i
         = Some (if String.eqb display_type "u" then PyArr u
                 else if String.eqb display_type "y" then PyArr y
                 else PyTuple d u y))
  /\
  (forall t pz_dir,
     pole_zero_directions G vec dir_type display_type e = (t, Ok pz_dir) ->
     length pz_dir = length vec).
Proof.
  split.
  - intros Hsvd. eexists _, _. split; [|split].
    + apply pole_zero_directions_run. exact Hsvd.
    + apply length_map.
    + intros i d Hi.
      destruct (directions G dir_type e d) as [u y] eqn:Hd.
      exists u, y. split; [reflexivity|].
      rewrite nth_error_map, Hi. simpl. rewrite Hd. reflexivity.
  - intros t pz_dir. rewrite pole_zero_directions_unfold.
    apply mapM_length.
Qed.

(** C10. A dir_type other than 'p' is not rejected: the call is the call
    with 'z', index -1 and epsilon 0, and where the SVD factors have
    columns it returns the entries made of their last columns. *)
Theorem pole_zero_directions_other_dir_type (G : K -> ndarray)
    (vec : list K) (dir_type display_type : string) (e : K) :
  dir_type <> "p"%string ->
  pole_zero_directions G vec dir_type display_type e
  = pole_zero_directions G vec "z" display_type e /\
  pole_zero_directions G vec dir_type display_type e
  = mapM (pz_dir_entry G (-1) k0 display_type) vec /\
  (Forall (fun d => svd_has_columns (G (kadd d k0))) vec ->
   pole_zero_directions G vec dir_type display_type e
   = (concat (map (fun d => [EvEvalG (kadd d k0); EvSVD]) vec),
      Ok (map (fun d => let '(U, _, V) := svd (G (kadd d k0)) in
                        shown display_type d
                              (column V (ncols V - 1), column U (ncols U - 1)))
              vec))).
Proof.
  intros Hp. apply String.eqb_neq in Hp.
  assert (Hz : pole_zero_directions G vec dir_type display_type e
               = mapM (pz_dir_entry G (-1) k0 display_type) vec).
  { unfold pole_zero_directions. now rewrite Hp. }
  split; [|split].
  - rewrite Hz. reflexivity.
  - exact Hz.
  - intros Hsvd.
    assert (Hoff : offset dir_type e = k0) by (unfold offset; now rewrite Hp).
    rewrite (pole_zero_directions_run G dir_type display_type e)
      by (now rewrite Hoff).
    rewrite Hoff. f_equal. f_equal. apply map_ext. intros d.
    unfold directions, selected. rewrite Hp, Hoff.
    destruct (svd (G (kadd d k0))) as [[U S] V]. reflexivity.
Qed.

(** C9, as the code has it.  There is no shape check at the start of a
    call: a violation surfaces where a numpy operation rejects its
    operands.  In [state_controllability] with A square of size n >= 1 and
    a B whose row count is not n, the eigen-decomposition is done first and
    the first product B.H * v then raises.  In [zero], blocks that cannot
    be stacked (rows of A and B differ, rows of C and D differ, the two
    block rows differ in width, or A is not square) raise before the
    determinant or anything else is called. *)
Theorem shape_mismatch_surfaces_in_numpy (A B C D : ndarray) :
  (forall n, 0 < n -> shape A = (n, n) -> nrows B <> n ->
             shape (eig_vl A) = (n, n) ->
             state_controllability A B = ([EvEig], Raise ValueError))
  /\
  (~ (nrows A = nrows B /\ nrows C = nrows D /\
      ncols A + ncols B = ncols C + ncols D /\ nrows A = ncols A) ->
   zero A B C D = ([], Raise ValueError)).
Proof.
  split.
  - intros n Hn HA HB Hvl. injection HA as HrA HcA. injection Hvl as Hrvl Hcvl.
    unfold state_controllability, asmatrix.
    rewrite eig_left_square by congruence. rewrite bind_ok.
    rewrite Hcvl. destruct n as [|n]; [lia|].
    assert (Hmul : matmul (ctranspose B)
                          (transpose (asmatrix1d (col1d (eig_vl A) 0)))
                   = raise ValueError).
    { unfold matmul. simpl. unfold col1d.
      rewrite length_map, length_seq, Hrvl.
      apply Nat.eqb_neq in HB. now rewrite HB. }
    unfold range. simpl seq. simpl mapM. rewrite Hmul. reflexivity.
  - intros Hbad. unfold zero.
    destruct (Nat.eq_dec (nrows B) (nrows A)) as [HAB|HAB];
      [|now rewrite hstack_rows_differ].
    rewrite (hstack_pair _ _ HAB), bind_ret_l.
    destruct (Nat.eq_dec (nrows D) (nrows C)) as [HCD|HCD];
      [|now rewrite hstack_rows_differ].
    rewrite (hstack_pair _ _ HCD), bind_ret_l.
    destruct (Nat.eq_dec (ncols C + (ncols D + 0)) (ncols A + (ncols B + 0)))
      as [Hw|Hw]; [|now rewrite vstack_cols_differ].
    rewrite vstack_pair by exact Hw. rewrite bind_ret_l.
    unfold shape. rewrite hstack_pair by (simpl; congruence).
    rewrite bind_ret_l. rewrite hstack_pair by (simpl; congruence).
    rewrite bind_ret_l. rewrite vstack_cols_differ; [reflexivity|].
    simpl. intros Hsq. apply Hbad. repeat split; lia.
Qed.

(** ** Further properties of the analyses *)

(** In a column of blocks of equal height [r], row [k * r + i] is row [i]
    of block [k]. *)
Lemma vget_block (r : nat) (ms : list ndarray) :
  Forall (fun X => nrows X = r) ms ->
  forall k i j d, k < length ms -> i < r ->
    vget ms (k * r + i) j = get (nth k ms d) i j.
Proof.
  induction 1 as [|X ms HX _ IH]; intros k i j d Hk Hi; simpl in *.
  - lia.
  - rewrite HX. destruct k as [|k]; simpl.
    + apply Nat.ltb_lt in Hi. now rewrite Hi.
    + assert (Hge : (r + k * r + i <? r) = false) by (apply Nat.ltb_ge; lia).
      rewrite Hge. replace (r + k * r + i - r) with (k * r + i) by lia.
      apply IH; lia.
Qed.

(** X1. On A of shape (n, n), n >= 1, and C of shape (p, n), the third
    component returned by [state_observability] has shape (n p, n) and its
    rows k p .. k p + p - 1 are the rows of C A^k, for k = 0 .. n-1. *)
Theorem observability_matrix_blocks (A C : ndarray) (n p : nat) :
  0 < n -> shape A = (n, n) -> shape C = (p, n) ->
  shape (eig_vr A) = (n, n) ->
  exists state_obsr out_pole_vec observe_matrix,
    state_observability A C
    = ([EvEig], Ok (state_obsr, out_pole_vec, observe_matrix)) /\
    shape observe_matrix = (n * p, n) /\
    forall k i j, k < n -> i < p -> j < n ->
      get observe_matrix (k * p + i) j = get (mmul C (mpow A k)) i j.
Proof.
  intros Hn HA HC Hvr. injection HA as HrA HcA. injection HC as HrC HcC.
  assert (Hblocks : Forall (fun X : ndarray => nrows X = p)
                      (map (fun k => mmul C (mpow A k)) (seq 0 n))).
  { apply Forall_forall. intros X HX. apply in_map_iff in HX.
    destruct HX as (k' & <- & _). exact HrC. }
  eexists _, _, _. split; [|split].
  - apply (state_observability_run A C (n := n)); assumption.
  - unfold shape; simpl. f_equal.
    rewrite total_const with (c := p) by exact Hblocks.
    now rewrite length_map, length_seq.
  - intros k i j Hk Hi Hj.
    rewrite total_const with (c := p), length_map, length_seq by exact Hblocks.
    rewrite get_build by nia.
    rewrite vget_block with (d := eye 0);
      [| exact Hblocks | rewrite length_map, length_seq; lia | lia].
    rewrite nth_map_seq by lia. reflexivity.
Qed.

(** X2. With A square of size n >= 1 and a C whose column count is not n,
    [state_observability] performs the eigen-decomposition and then raises
    at the first product C.dot(x); nothing is returned. *)
Theorem state_observability_column_mismatch (A C : ndarray) (n : nat) :
  0 < n -> shape A = (n, n) -> ncols C <> n ->
  shape (eig_vr A) = (n, n) ->
  state_observability A C = ([EvEig], Raise ValueError).
Proof.
  intros Hn HA HC Hvr. injection HA as HrA HcA. injection Hvr as Hrvr Hcvr.
  unfold state_observability, asmatrix.
  rewrite eig_right_square by congruence. rewrite bind_ok.
  assert (Hdot : forall i,
             dot1d C (map (get (transpose (eig_vr A)) i) (seq 0 n))
             = raise ValueError).
  { intros i. unfold dot1d. rewrite length_map, length_seq.
    apply Nat.eqb_neq in HC. now rewrite HC. }
  unfold iter_rows.
  change (nrows (transpose (eig_vr A))) with (ncols (eig_vr A)).
  change (ncols (transpose (eig_vr A))) with (nrows (eig_vr A)).
  rewrite Hcvr, Hrvr.
  destruct n as [|n]; [lia|].
  set (row := fun i => map (get (transpose (eig_vr A)) i) (seq 0 (S n))).
  cbn [seq map mapM]. unfold row. rewrite (Hdot 0). reflexivity.
Qed.

(** X3. A state matrix that is not square stops all three analyses at
    their first eigen-decomposition: each raises, and
    [is_min_realisation] never reaches the controllability analysis. *)
Theorem analyses_reject_nonsquare (A B C : ndarray) :
  nrows A <> ncols A ->
  state_controllability A B = ([EvEig], Raise ValueError) /\
  state_observability A C = ([EvEig], Raise ValueError) /\
  is_min_realisation A B C = ([EvEig], Raise ValueError).
Proof.
  intros Hsq. apply Nat.eqb_neq in Hsq.
  assert (Hc : state_controllability A B = ([EvEig], Raise ValueError)).
  { unfold state_controllability, asmatrix, eig_left. simpl. now rewrite Hsq. }
  assert (Ho : state_observability A C = ([EvEig], Raise ValueError)).
  { unfold state_observability, asmatrix, eig_right. simpl. now rewrite Hsq. }
  repeat split; try assumption.
  unfold is_min_realisation. now rewrite Ho.
Qed.

(** X4. [is_min_realisation] recovers nothing: an exception of the
    observability analysis comes out as it is, with the controllability
    analysis not started; an exception of the controllability analysis
    comes out after the trace of the observability analysis. *)
Theorem is_min_realisation_propagates (A B C : ndarray) :
  (forall t e, state_observability A C = (t, Raise e) ->
               is_min_realisation A B C = (t, Raise e))
  /\
  (forall t2 r t1 e,
      state_observability A C = (t2, Ok r) ->
      state_controllability A B = (t1, Raise e) ->
      is_min_realisation A B C = (t2 ++ t1, Raise e)).
Proof.
  split.
  - intros t e Ho. unfold is_min_realisation. now rewrite Ho.
  - intros t2 [[so yp] om] t1 e Ho Hc. unfold is_min_realisation.
    rewrite Ho, bind_ok, Hc. reflexivity.
Qed.

(** X5. On a system of the right shapes, A (n, n) with n >= 1, B (n, m),
    C (p, n), [is_min_realisation] returns after exactly two
    eigen-decompositions, and it returns True if and only if no input pole
    vector has norm 0.0 and no output pole vector has entries summing to
    0.0. *)
Theorem is_min_realisation_decision {eqd : ExactEq K}
    (A B C : ndarray) (n m p : nat) :
  0 < n -> shape A = (n, n) -> shape B = (n, m) -> shape C = (p, n) ->
  shape (eig_vl A) = (n, n) -> shape (eig_vr A) = (n, n) ->
  exists is_min_real,
    is_min_realisation A B C = ([EvEig; EvEig], Ok is_min_real) /\
    (is_min_real = true <->
     Forall (fun u => norm u <> k0)
            (map (input_pole_vector B (eig_vl A)) (seq 0 n)) /\
     Forall (fun y => npsum y <> k0)
            (map (output_pole_vector C (eig_vr A) 3) (seq 0 n))).
Proof.
  intros Hn HA HB HC Hvl Hvr.
  injection HA as HrA HcA. injection HB as HrB HcB. injection HC as HrC HcC.
  eexists. split.
  - unfold is_min_realisation.
    rewrite (state_observability_run A C (n := n)) by assumption.
    rewrite bind_ok.
    rewrite (state_controllability_run A B (n := n)) by assumption.
    reflexivity.
  - rewrite andb_true_iff. rewrite !not_any_zero. reflexivity.
Qed.

(** ** Further properties of [pole_zero_directions] *)

Lemma mapM_Forall2 X Y (f : X -> M Y) (l : list X) (t : list event)
    (r : list Y) :
  mapM f l = (t, Ok r) ->
  Forall2 (fun x y => exists t', f x = (t', Ok y)) l r.
Proof.
  revert t r. induction l as [|x l IH]; intros t r; simpl.
  - unfold ret. intros H. injection H as _ <-. constructor.
  - destruct (f x) as [tx [y|ex]] eqn:Hx; [|discriminate].
    rewrite bind_ok.
    destruct (mapM f l) as [tl [ys|el]] eqn:Hl; [|discriminate].
    rewrite bind_ok. simpl. intros H. injection H as _ <-.
    constructor; [now exists tx | now apply (IH tl)].
Qed.

Lemma mapM_app_ok X Y (f : X -> M Y) (l1 l2 : list X)
    (t1 t2 : list event) (r1 : list Y) (res2 : result (list Y)) :
  mapM f l1 = (t1, Ok r1) -> mapM f l2 = (t2, res2) ->
  mapM f (l1 ++ l2)
  = (t1 ++ t2, match res2 with
               | Ok r2 => Ok (r1 ++ r2)
               | Raise e => Raise e
               end).
Proof.
  intros H1 H2. revert t1 r1 H1.
  induction l1 as [|x l1 IH]; intros t1 r1; simpl.
  - unfold ret. intros H. injection H as <- <-. rewrite H2.
    now destruct res2.
  - destruct (f x) as [tx [y|ex]]; [|discriminate].
    rewrite !bind_ok.
    destruct (mapM f l1) as [tl [ys|el]] eqn:Hl; [|discriminate].
    rewrite bind_ok. simpl. intros H. injection H as <- <-.
    rewrite (IH tl ys eq_refl). rewrite app_nil_r.
    destruct res2; simpl; now rewrite ?app_nil_r, app_assoc.
Qed.

Lemma mapM_app_raise X Y (f : X -> M Y) (l1 l2 : list X)
    (t1 : list event) (e : exn) :
  mapM f l1 = (t1, Raise e) -> mapM f (l1 ++ l2) = (t1, Raise e).
Proof.
  revert t1. induction l1 as [|x l1 IH]; intros t1; simpl.
  - discriminate.
  - destruct (f x) as [tx [y|ex]]; [|now intros H].
    rewrite !bind_ok.
    destruct (mapM f l1) as [tl [ys|el]] eqn:Hl.
    + rewrite bind_ok. discriminate.
    + simpl. intros H. injection H as <- <-.
      now rewrite (IH tl eq_refl).
Qed.

(** What a pass of the loop appends when it does not raise. *)
Lemma pz_dir_entry_value (G : K -> ndarray) (dt : Z) (e : K)
    (display_type : string) (d : K) (t : list event) (r : pyval) :
  pz_dir_entry G dt e display_type d = (t, Ok r) ->
  exists u y,
    r = if String.eqb display_type "u" then PyArr u
        else if String.eqb display_type "y" then PyArr y
        else PyTuple d u y.
Proof.
  unfold pz_dir_entry, call_G, SVD. simpl.
  destruct (svd (G (kadd d e))) as [[U S] V].
  destruct (getcol V dt) as [tv [u|ev]]; [|discriminate].
  rewrite bind_ok.
  destruct (getcol U dt) as [tu [y|eu]]; [|discriminate].
  rewrite bind_ok. intros H. exists u, y.
  destruct (String.eqb display_type "u");
    [|destruct (String.eqb display_type "y")];
    simpl in H; now injection H as _ <-.
Qed.

(** X6. In the returned list the tuples carry the locations that were
    passed, in their order, when display_type is neither 'u' nor 'y'; with
    'u' or 'y' no entry carries a location. *)
Theorem pole_zero_directions_locations (G : K -> ndarray) (vec : list K)
    (dir_type display_type : string) (e : K) (t : list event)
    (pz_dir : list pyval) :
  pole_zero_directions G vec dir_type display_type e = (t, Ok pz_dir) ->
  (display_type <> "u"%string -> display_type <> "y"%string ->
   map pz_location pz_dir = map Some vec)
  /\
  (display_type = "u"%string \/ display_type = "y"%string ->
   map pz_location pz_dir = map (fun _ => None) vec).
Proof.
  rewrite pole_zero_directions_unfold. intros Hrun.
  apply mapM_Forall2 in Hrun. split.
  - intros Hu Hy. apply String.eqb_neq in Hu, Hy.
    induction Hrun as [|d r vec' res' (t' & Hd) _ IH]; simpl.
    + reflexivity.
    + apply pz_dir_entry_value in Hd. destruct Hd as (u & y & ->).
      rewrite Hu, Hy. simpl. now rewrite IH.
  - intros Hd.
    assert (Harr : forall (d : K) (u y : ndarray),
               pz_location (if String.eqb display_type "u" then PyArr u
                            else if String.eqb display_type "y" then PyArr y
                            else PyTuple d u y) = None).
    { intros d u y. destruct Hd as [-> | ->]; reflexivity. }
    induction Hrun as [|d r vec' res' (t' & Hr) _ IH]; simpl.
    + reflexivity.
    + apply pz_dir_entry_value in Hr. destruct Hr as (u & y & ->).
      now rewrite Harr, IH.
Qed.

Lemma getcol_empty (X : ndarray) (dt : Z) :
  ncols X = 0 -> getcol X dt = raise IndexError.
Proof.
  intros Hc. unfold getcol. rewrite Hc. simpl Z.of_nat.
  destruct (_ && _) eqn:H; [|reflexivity].
  apply andb_true_iff in H. destruct H as [H1 H2].
  apply Z.leb_le in H1. apply Z.ltb_lt in H2.
  destruct (dt <? 0)%Z eqn:Hdt;
    [apply Z.ltb_lt in Hdt | apply Z.ltb_ge in Hdt]; lia.
Qed.

(** One pass of the loop when a factor has no column. *)
Lemma pz_dir_entry_no_columns (G : K -> ndarray) (dir_type display_type : string)
    (e d : K) :
  ~ svd_has_columns (G (kadd d (offset dir_type e))) ->
  pz_dir_entry G (if String.eqb dir_type "p" then 0%Z else (-1)%Z)
               (offset dir_type e) display_type d
  = ([EvEvalG (kadd d (offset dir_type e)); EvSVD], Raise IndexError).
Proof.
  unfold svd_has_columns, pz_dir_entry, call_G, SVD. simpl.
  destruct (svd (G (kadd d (offset dir_type e)))) as [[U S] V].
  intros Hno.
  destruct (Nat.eq_dec (ncols V) 0) as [HV|HV].
  - now rewrite getcol_empty.
  - assert (HU : ncols U = 0) by lia.
    destruct (String.eqb dir_type "p").
    + rewrite getcol_first by lia. rewrite bind_ret_l.
      now rewrite getcol_empty.
    + rewrite getcol_last by lia. rewrite bind_ret_l.
      now rewrite getcol_empty.
Qed.

(** X7. The first location at which the SVD gives a factor without
    columns ends the call with an IndexError, whatever display_type asks
    for: G and the SVD have been called for the locations up to that one,
    not for the later ones, and nothing is returned. *)
Theorem pole_zero_directions_index_error (G : K -> ndarray)
    (pre post : list K) (d : K) (dir_type display_type : string) (e : K) :
  Forall (fun d' => svd_has_columns (G (kadd d' (offset dir_type e)))) pre ->
  ~ svd_has_columns (G (kadd d (offset dir_type e))) ->
  pole_zero_directions G (pre ++ d :: post) dir_type display_type e
  = (concat (map (fun d' => [EvEvalG (kadd d' (offset dir_type e)); EvSVD])
                 (pre ++ [d])),
     Raise IndexError).
Proof.
  intros Hpre Hd.
  pose proof (pole_zero_directions_run G dir_type display_type e Hpre) as Hrun.
  rewrite pole_zero_directions_unfold in *.
  erewrite mapM_app_ok with
    (t2 := [EvEvalG (kadd d (offset dir_type e)); EvSVD])
    (res2 := Raise IndexError); [| exact Hrun |].
  - rewrite map_app, concat_app. reflexivity.
  - cbn [mapM]. now rewrite pz_dir_entry_no_columns.
Qed.

(** The calls one run makes, for the locations it reaches. *)
Lemma pz_loop_trace (G : K -> ndarray) (dt : Z) (e : K)
    (display_type : string) (vec : list K) :
  exists k, k <= length vec /\
    trace (mapM (pz_dir_entry G dt e display_type) vec)
    = concat (map (fun d => [EvEvalG (kadd d e); EvSVD]) (firstn k vec)) /\
    (forall r, outcome (mapM (pz_dir_entry G dt e display_type) vec) = Ok r ->
               k = length vec).
Proof.
  induction vec as [|d vec (k & Hk & Htr & Hall)].
  - exists 0. simpl. repeat split; auto.
  - simpl mapM.
    pose proof (pz_dir_entry_trace G dt e display_type d) as Hd.
    destruct (pz_dir_entry G dt e display_type d) as [td [y|ex]];
      unfold trace in Hd; simpl in Hd; subst td.
    + rewrite bind_ok.
      destruct (mapM (pz_dir_entry G dt e display_type) vec)
        as [tl [ys|el]] eqn:Hloop.
      * exists (S k). rewrite bind_ok. unfold trace, outcome in *; simpl in *.
        rewrite app_nil_r, Htr. repeat split; [lia|].
        intros r _. f_equal. now apply (Hall ys).
      * exists (S k). unfold trace, outcome in *; simpl in *.
        rewrite Htr. repeat split; [lia | discriminate].
    + exists 1. unfold trace, outcome; simpl.
      repeat split; [lia | discriminate].
Qed.

(** X8. Whatever G and the SVD give, a call of [pole_zero_directions]
    calls G once and then the SVD once for each location it reaches, in
    order, at location + e for dir_type 'p' and at location + 0 otherwise,
    and makes no other call; a call that returns has reached every
    location. *)
Theorem pole_zero_directions_calls (G : K -> ndarray) (vec : list K)
    (dir_type display_type : string) (e : K) :
  exists k, k <= length vec /\
    trace (pole_zero_directions G vec dir_type display_type e)
    = concat (map (fun d => [EvEvalG (kadd d (offset dir_type e)); EvSVD])
                  (firstn k vec)) /\
    (forall r,
        outcome (pole_zero_directions G vec dir_type display_type e) = Ok r ->
        k = length vec).
Proof.
  rewrite pole_zero_directions_unfold. apply pz_loop_trace.
Qed.

(** X9. Locations can be handled in batches: when the calls on two lists
    return, the call on their concatenation returns the concatenated
    results after the concatenated traces; when the call on the first list
    raises, the call on the concatenation raises the same, at the same
    point. *)
Theorem pole_zero_directions_app (G : K -> ndarray) (vec1 vec2 : list K)
    (dir_type display_type : string) (e : K) :
  (forall t1 r1 t2 r2,
      pole_zero_directions G vec1 dir_type display_type e = (t1, Ok r1) ->
      pole_zero_directions G vec2 dir_type display_type e = (t2, Ok r2) ->
      pole_zero_directions G (vec1 ++ vec2) dir_type display_type e
      = (t1 ++ t2, Ok (r1 ++ r2)))
  /\
  (forall t1 ex,
      pole_zero_directions G vec1 dir_type display_type e = (t1, Raise ex) ->
      pole_zero_directions G (vec1 ++ vec2) dir_type display_type e
      = (t1, Raise ex)).
Proof.
  rewrite !pole_zero_directions_unfold. split.
  - intros t1 r1 t2 r2 H1 H2.
    now rewrite mapM_app_ok with (1 := H1) (2 := H2).
  - intros t1 ex H1. now apply mapM_app_raise.
Qed.

(** X10. Where every SVD factor has a single column, as for a scalar
    transfer function, index 0 and index -1 select the same column: the
    call for poles with e = 0 is the call for zeros. *)
Theorem pole_zero_directions_single_column (G : K -> ndarray) (vec : list K)
    (display_type : string) (e : K) :
  Forall (fun d => let '(U, _, V) := svd (G (kadd d k0)) in
                   ncols U = 1 /\ ncols V = 1) vec ->
  pole_zero_directions G vec "p" display_type k0
  = pole_zero_directions G vec "z" display_type e.
Proof.
  intros Hone.
  assert (Hcols : Forall (fun d => svd_has_columns (G (kadd d k0))) vec).
  { eapply Forall_impl; [|exact Hone]. intros d. unfold svd_has_columns.
    destruct (svd (G (kadd d k0))) as [[U S] V]. lia. }
  rewrite (pole_zero_directions_run G "p" display_type k0) by exact Hcols.
  rewrite (pole_zero_directions_run G "z" display_type e) by exact Hcols.
  f_equal. f_equal. apply map_ext_in. intros d Hd.
  rewrite Forall_forall in Hone. specialize (Hone d Hd).
  unfold directions, selected, offset. simpl.
  destruct (svd (G (kadd d k0))) as [[U S] V].
  destruct Hone as [-> ->]. reflexivity.
Qed.

(** ** Further properties of [zero] *)

Lemma zero_unstackable (A B C D : ndarray) :
  ~ stackable A B C D -> zero A B C D = ([], Raise ValueError).
Proof.
  unfold stackable. intros Hbad. unfold zero.
  destruct (Nat.eq_dec (nrows B) (nrows A)) as [HAB|HAB];
    [|now rewrite hstack_rows_differ].
  rewrite (hstack_pair _ _ HAB), bind_ret_l.
  destruct (Nat.eq_dec (nrows D) (nrows C)) as [HCD|HCD];
    [|now rewrite hstack_rows_differ].
  rewrite (hstack_pair _ _ HCD), bind_ret_l.
  destruct (Nat.eq_dec (ncols C + (ncols D + 0)) (ncols A + (ncols B + 0)))
    as [Hw|Hw]; [|now rewrite vstack_cols_differ].
  rewrite vstack_pair by exact Hw. rewrite bind_ret_l.
  unfold shape. rewrite hstack_pair by (simpl; congruence).
  rewrite bind_ret_l. rewrite hstack_pair by (simpl; congruence).
  rewrite bind_ret_l. rewrite vstack_cols_differ; [reflexivity|].
  simpl. intros Hsq. apply Hbad. repeat split; lia.
Qed.

(** Blocks that can be laid out reach the determinant, with a pencil of
    the size of the layout. *)
Lemma zero_stacked (A B C D : ndarray) :
  stackable A B C D ->
  exists f : spmatrix,
    sp_nrows f = nrows A + nrows C /\ sp_ncols f = ncols A + ncols B /\
    zero A B C D = bind (sp_det f) (fun zf => bind (solve zf) ret).
Proof.
  intros (HAB & HCD & Hw & Hsq). unfold zero, shape.
  rewrite hstack_pair by congruence. rewrite bind_ret_l.
  rewrite hstack_pair by congruence. rewrite bind_ret_l.
  rewrite vstack_pair by (simpl; lia). rewrite bind_ret_l.
  rewrite hstack_pair by (simpl; congruence). rewrite bind_ret_l.
  rewrite hstack_pair by (simpl; congruence). rewrite bind_ret_l.
  rewrite vstack_pair by (simpl; lia). rewrite bind_ret_l.
  unfold sp_sub.
  cbn [sp_nrows sp_ncols sp_zmul sp_Matrix sbuild nrows ncols build eye zeros].
  assert (Hshape : ((nrows A + (nrows C + 0) =? nrows A + (nrows C + 0))
                    && (nrows A + (ncols B + 0) =? ncols A + (ncols B + 0)))
                   = true).
  { apply andb_true_iff. split; apply Nat.eqb_eq; lia. }
  rewrite Hshape, bind_ret_l.
  eexists. split; [|split]; [| |reflexivity]; cbn; lia.
Qed.

(** X11. [zero] returns exactly when the four blocks can be laid out and
    C has as many rows as B has columns.  Otherwise it raises: a
    ValueError of the stacking before any call is made, or the
    NonSquareMatrixError of the determinant call; the subtraction
    z Ig - M itself never fails. *)
Theorem zero_outcomes (A B C D : ndarray) :
  ((exists t zs, zero A B C D = (t, Ok zs)) <->
   stackable A B C D /\ nrows C = ncols B)
  /\
  (forall t ex, zero A B C D = (t, Raise ex) ->
     (t = [] /\ ex = ValueError) \/
     (t = [EvDet] /\ ex = NonSquareMatrixError)).
Proof.
  assert (Hdec : stackable A B C D \/ ~ stackable A B C D)
    by (unfold stackable; lia).
  destruct Hdec as [Hst|Hst].
  - destruct (zero_stacked Hst) as (f & Hr & Hc & Hrun).
    destruct Hst as (HAB & HCD & Hw & Hsq).
    rewrite Hrun. unfold sp_det, solve. rewrite Hr, Hc.
    destruct (Nat.eq_dec (nrows C) (ncols B)) as [Hpm|Hpm].
    + assert (Heq : (nrows A + nrows C =? ncols A + ncols B) = true)
        by (apply Nat.eqb_eq; lia).
      rewrite Heq. simpl. split.
      * split; [intros _; unfold stackable; lia | intros _; eauto].
      * intros t ex H. discriminate.
    + assert (Hne : (nrows A + nrows C =? ncols A + ncols B) = false)
        by (apply Nat.eqb_neq; lia).
      rewrite Hne. simpl. split.
      * split; [intros (t & zs & H); discriminate | intros [_ H]; lia].
      * intros t ex H. injection H as <- <-. now right.
  - rewrite (zero_unstackable Hst). split.
    + split; [intros (t & zs & H); discriminate | intros [H _]; tauto].
    + intros t ex H. injection H as <- <-. now left.
Qed.

End Facts.

Section ExactFacts.

Context {K : Type} {num : Numeric K} {la : @LinAlg K} {laws : ExactRing K}.

Local Abbreviation M := (@M K).
Local Abbreviation event := (@event K).
Local Abbreviation ndarray := (@ndarray K).
Local Abbreviation spmatrix := (@spmatrix K).
Local Abbreviation pyval := (@pyval K).
Local Abbreviation poly := (@poly K).

Add Ring Kring : (@k_ring K num laws).

Lemma kadd_0_r (x : K) : kadd x k0 = x.
Proof. ring. Qed.

Lemma kadd_fixed (d e : K) : kadd d e = d <-> e = k0.
Proof.
  split; intros H.
  - assert (He : e = ksub (kadd d e) d) by ring. rewrite He, H. ring.
  - subst e. ring.
Qed.

(** *** Evaluation of polynomials is a ring morphism *)

Lemma peval_padd (p q : poly) (r : K) :
  peval (padd p q) r = kadd (peval p r) (peval q r).
Proof.
  revert q. induction p as [|a p IH]; intros [|b q]; simpl; try ring.
  rewrite IH. ring.
Qed.

Lemma peval_popp (p : poly) (r : K) : peval (popp p) r = kopp (peval p r).
Proof.
  induction p as [|a p IH]; simpl; [ring|].
  fold (popp p). rewrite IH. ring.
Qed.

Lemma peval_psub (p q : poly) (r : K) :
  peval (psub p q) r = ksub (peval p r) (peval q r).
Proof. unfold psub. rewrite peval_padd, peval_popp. ring. Qed.

Lemma peval_pscale (a : K) (p : poly) (r : K) :
  peval (pscale a p) r = kmul a (peval p r).
Proof.
  induction p as [|b p IH]; simpl; [ring|].
  fold (pscale a p). rewrite IH. ring.
Qed.

Lemma peval_pmul (p q : poly) (r : K) :
  peval (pmul p q) r = kmul (peval p r) (peval q r).
Proof.
  induction p as [|a p IH]; simpl; [ring|].
  rewrite peval_padd, peval_pscale. simpl. rewrite IH. ring.
Qed.

Lemma peval_alt_sum (l : list poly) (r : K) :
  peval (alt_sum [] psub l) r
  = alt_sum k0 ksub (map (fun p => peval p r) l).
Proof.
  induction l as [|p l IH]; simpl; [reflexivity|].
  now rewrite peval_psub, IH.
Qed.

Lemma del_map X Y (f : X -> Y) (j : nat) (l : list X) :
  del j (map f l) = map f (del j l).
Proof. unfold del. now rewrite firstn_map, skipn_map, map_app. Qed.

(** The determinant polynomial, evaluated, is the determinant of the
    evaluated entries. *)
Lemma peval_pdet (n : nat) (X : list (list poly)) (r : K) :
  peval (pdet n X) r = kdet n (map (map (fun p => peval p r)) X).
Proof.
  unfold pdet, kdet. revert X.
  induction n as [|n IH]; intros X.
  - destruct X; simpl; ring.
  - destruct X as [|row rest]; [simpl; ring|].
    cbn [gdet map]. rewrite peval_alt_sum, map_map.
    f_equal. apply map_ext. intros j.
    rewrite peval_pmul, IH. f_equal.
    + symmetry. exact (map_nth (fun p => peval p r) row [] j).
    + f_equal. rewrite !map_map. apply map_ext. intros l.
      now rewrite del_map.
Qed.

Lemma sget_sbuild (r c : nat) (f : nat -> nat -> poly) (i j : nat) :
  i < r -> j < c -> sget (sbuild r c f) i j = f i j.
Proof.
  intros Hi Hj. unfold sget, sbuild; simpl.
  rewrite nth_map_seq by exact Hi. now rewrite nth_map_seq.
Qed.

(** Stacking four blocks of matching shapes gives the two by two block
    array. *)
Lemma stack_blocks T (X Y Z W : ndarray) (n m p : nat)
    (k : ndarray -> M T) :
  shape X = (n, n) -> shape Y = (n, m) ->
  shape Z = (p, n) -> shape W = (p, m) ->
  bind (hstack [X; Y])
       (fun top => bind (hstack [Z; W])
                        (fun bot => bind (vstack [top; bot]) k))
  = k (build (n + p) (n + m) (rosenbrock n X Y Z W)).
Proof.
  intros HX HY HZ HW.
  injection HX as HrX HcX. injection HY as HrY HcY.
  injection HZ as HrZ HcZ. injection HW as HrW HcW.
  rewrite hstack_pair by congruence. rewrite bind_ret_l.
  rewrite hstack_pair by congruence. rewrite bind_ret_l.
  rewrite vstack_pair by (simpl; congruence). rewrite bind_ret_l.
  f_equal. cbn [nrows ncols build].
  rewrite HrX, HcX, HcY, HrZ, !Nat.add_0_r.
  apply build_ext. intros i j Hi Hj.
  unfold rosenbrock. cbn [vget nrows ncols build].
  destruct (Nat.ltb_spec i n) as [Hin|Hin].
  - rewrite get_build by lia. cbn [hget]. rewrite HcX, HcY.
    destruct (Nat.ltb_spec j n) as [Hjn|Hjn]; [reflexivity|].
    destruct (Nat.ltb_spec (j - n) m); [reflexivity | lia].
  - destruct (Nat.ltb_spec (i - n) p); [|lia].
    rewrite get_build by lia. cbn [hget]. rewrite HcZ, HcW.
    destruct (Nat.ltb_spec j n) as [Hjn|Hjn]; [reflexivity|].
    destruct (Nat.ltb_spec (j - n) m); [reflexivity | lia].
Qed.

(** The blocks eye, zeros, zeros, zeros make [[I_n, 0], [0, 0]]. *)
Lemma identity_blocks (n m p i j : nat) :
  i < n + p -> j < n + m ->
  rosenbrock n (eye n) (zeros n m) (zeros p n) (zeros p m) i j
  = block_identity n i j.
Proof.
  intros Hi Hj. unfold rosenbrock, block_identity, eye, zeros.
  destruct (Nat.ltb_spec i n) as [Hin|Hin];
    destruct (Nat.ltb_spec j n) as [Hjn|Hjn];
    rewrite get_build by lia; rewrite ?andb_true_r, ?andb_false_r;
    try reflexivity.
  assert (Hij : (i =? j) = false) by (apply Nat.eqb_neq; lia).
  now rewrite Hij.
Qed.

(** The run of [zero] up to the subtraction z Ig - M. *)
Lemma zero_pencil (A B C D : ndarray) (n m p : nat) :
  shape A = (n, n) -> shape B = (n, m) ->
  shape C = (p, n) -> shape D = (p, m) ->
  exists f : spmatrix,
    sp_nrows f = n + p /\ sp_ncols f = n + m /\
    zero A B C D = bind (sp_det f) (fun zf => bind (solve zf) ret) /\
    forall r,
      map (map (fun q => peval q r)) (sp_rows f)
      = rows (build (n + p) (n + m)
                    (fun i j => ksub (kmul r (block_identity n i j))
                                     (rosenbrock n A B C D i j))).
Proof.
  intros HA HB HC HD.
  unfold zero.
  rewrite (stack_blocks _ HA HB HC HD).
  rewrite HA, HB, HC, HD.
  rewrite (@stack_blocks _ (eye n) (zeros n m) (zeros p n) (zeros p m) n m p)
    by reflexivity.
  set (Ig := build (n + p) (n + m)
                  (rosenbrock n (eye n) (zeros n m) (zeros p n) (zeros p m))).
  set (Mn := build (n + p) (n + m) (rosenbrock n A B C D)).
  unfold sp_sub.
  change (sp_nrows (sp_zmul (sp_Matrix Ig))) with (n + p).
  change (sp_ncols (sp_zmul (sp_Matrix Ig))) with (n + m).
  change (sp_nrows (sp_Matrix Mn)) with (n + p).
  change (sp_ncols (sp_Matrix Mn)) with (n + m).
  rewrite !Nat.eqb_refl. cbn [andb]. rewrite bind_ret_l.
  eexists. split; [|split; [|split]].
  3: reflexivity.
  - reflexivity.
  - reflexivity.
  - intros r. unfold sbuild at 1. cbn [sp_rows rows build].
    rewrite map_map. apply map_ext_in. intros i Hi. apply in_seq in Hi.
    rewrite map_map. apply map_ext_in. intros j Hj. apply in_seq in Hj.
    rewrite peval_psub. unfold sp_zmul, sp_Matrix.
    rewrite !sget_sbuild by (cbn; lia).
    rewrite peval_pmul. unfold Ig, Mn.
    rewrite !get_build by lia.
    rewrite identity_blocks by lia.
    unfold pz, pconst. simpl peval. ring.
Qed.

(** *** The claims that rest on exact arithmetic *)

(** C7. On A of shape (n, n), n >= 1, and B of shape (n, m), the third
    component returned by [state_controllability] has shape (n, n m) and its
    columns k m .. k m + m - 1 are the columns of A^k B, for k = 0 .. n-1;
    for A = [[0,1],[0,0]] and B = [[0],[1]] it is [[0,1],[1,0]]. *)
Theorem controllability_matrix_blocks :
  (forall (A B : ndarray) (n m : nat),
      0 < n -> shape A = (n, n) -> shape B = (n, m) ->
      shape (eig_vl A) = (n, n) ->
      exists state_control u_p control_matrix,
        state_controllability A B
        = ([EvEig], Ok (state_control, u_p, control_matrix)) /\
        shape control_matrix = (n, n * m) /\
        forall k i j, k < n -> i < n -> j < m ->
          get control_matrix i (k * m + j) = get (mmul (mpow A k) B) i j)
  /\
  (shape (eig_vl (array [[k0; k1]; [k0; k0]])) = (2, 2) ->
   exists state_control u_p,
     state_controllability (array [[k0; k1]; [k0; k0]]) (array [[k0]; [k1]])
     = ([EvEig], Ok (state_control, u_p, array [[k0; k1]; [k1; k0]]))).
Proof.
  split.
  - intros A B n m Hn HA HB Hvl.
    injection HA as HrA HcA. injection HB as HrB HcB.
    eexists _, _, _. split; [|split].
    + apply (state_controllability_run A B (n := n)); assumption.
    + unfold shape; simpl. f_equal.
      rewrite total_const with (c := m).
      * now rewrite length_map, length_seq.
      * apply Forall_forall. intros X HX. apply in_map_iff in HX.
        destruct HX as (k & <- & _). exact HcB.
    + intros k i j Hk Hi Hj.
      assert (Hblocks : Forall (fun X : ndarray => ncols X = m)
                          (map (fun k => mmul (mpow A k) B) (seq 0 n))).
      { apply Forall_forall. intros X HX. apply in_map_iff in HX.
        destruct HX as (k' & <- & _). exact HcB. }
      rewrite total_const with (c := m), length_map, length_seq by exact Hblocks.
      rewrite get_build by nia.
      rewrite hget_block with (d := eye 0);
        [| exact Hblocks | rewrite length_map, length_seq; lia | lia].
      rewrite nth_map_seq by lia. reflexivity.
  - intros Hvl. eexists _, _.
    rewrite (state_controllability_run _ _ (n := 2));
      [| lia | reflexivity | reflexivity | reflexivity | exact Hvl].
    do 3 f_equal. unfold array, build. cbn.
    repeat f_equal; ring.
Qed.

(** C3, as the code has it.  On blocks A (n, n), B (n, m), C (p, n) and
    D (p, m), [zero] stacks M = [[A, B], [C, D]] and Ig = [[I_n, 0], [0, 0]]
    and forms z Ig - M with entries that are polynomials in z.  When
    p = m it takes the determinant as a polynomial, whose value at every r
    is the determinant of r Ig - M, and returns what the solver gives for
    it, unfiltered; so, for a solver that gives exactly the roots of that
    polynomial, the result holds exactly the r at which r Ig - M is
    singular.  When p <> m the pencil is not square and the determinant
    call raises. *)
Theorem zero_roots_of_pencil_determinant (A B C D : ndarray) (n m p : nat) :
  shape A = (n, n) -> shape B = (n, m) ->
  shape C = (p, n) -> shape D = (p, m) ->
  (p = m ->
   exists zf : poly,
     zero A B C D = ([EvDet; EvSolve], Ok (sp_solve zf)) /\
     (forall r, peval zf r = kdet (n + m) (pencil_at n (n + m) A B C D r)) /\
     ((forall r, In r (sp_solve zf) <-> peval zf r = k0) ->
      forall r, In r (sp_solve zf) <->
                kdet (n + m) (pencil_at n (n + m) A B C D r) = k0))
  /\
  (p <> m -> zero A B C D = ([EvDet], Raise NonSquareMatrixError)).
Proof.
  intros HA HB HC HD.
  destruct (zero_pencil HA HB HC HD) as (f & Hr & Hc & Hrun & Hval).
  split.
  - intros ->. exists (pdet (n + m) (sp_rows f)).
    assert (Hev : forall r, peval (pdet (n + m) (sp_rows f)) r
                            = kdet (n + m) (pencil_at n (n + m) A B C D r)).
    { intros r. rewrite peval_pdet, Hval. reflexivity. }
    split; [|split].
    + rewrite Hrun. unfold sp_det, solve. rewrite Hr, Hc, Nat.eqb_refl.
      reflexivity.
    + exact Hev.
    + intros Hsolve r. rewrite <- Hev. apply Hsolve.
  - intros Hpm. rewrite Hrun. unfold sp_det. rewrite Hr, Hc.
    assert (Hne : (n + p =? n + m) = false) by (apply Nat.eqb_neq; lia).
    rewrite Hne. reflexivity.
Qed.

(** C4, as the code has it.  With dir_type 'z' the calls of G are at the
    locations themselves, in order, whatever epsilon was supplied; with
    dir_type 'p' they are at location + e; and in exact arithmetic
    location + e is the location itself exactly when the supplied e is 0.
    A call that returns has evaluated G for every location. *)
Theorem pole_zero_directions_evaluations (G : K -> ndarray) (vec : list K)
    (display_type : string) (e : K) :
  (exists k, k <= length vec /\
     eval_points (trace (pole_zero_directions G vec "z" display_type e))
     = firstn k vec /\
     (forall r, outcome (pole_zero_directions G vec "z" display_type e) = Ok r ->
                k = length vec))
  /\
  (exists k, k <= length vec /\
     eval_points (trace (pole_zero_directions G vec "p" display_type e))
     = map (fun d => kadd d e) (firstn k vec) /\
     (forall r, outcome (pole_zero_directions G vec "p" display_type e) = Ok r ->
                k = length vec))
  /\
  (forall d, kadd d e = d <-> e = k0).
Proof.
  split; [|split].
  - destruct (pz_loop_evaluations G (-1) k0 display_type vec)
      as (k & Hk & Hpts & Hall).
    exists k. repeat split; [exact Hk | | exact Hall].
    change (pole_zero_directions G vec "z" display_type e)
      with (mapM (pz_dir_entry G (-1) k0 display_type) vec).
    rewrite Hpts. rewrite <- (map_id (firstn k vec)) at 2.
    apply map_ext. intros d. apply kadd_0_r.
  - destruct (pz_loop_evaluations G 0 e display_type vec)
      as (k & Hk & Hpts & Hall).
    exists k. repeat split; assumption.
  - intros d. apply kadd_fixed.
Qed.

(** *** Further properties that rest on exact arithmetic *)

Lemma ksum_zero (f : nat -> K) (n : nat) :
  (forall k, k < n -> f k = k0) -> ksum f n = k0.
Proof.
  intros Hf. rewrite (ksum_ext f (fun _ => k0) Hf).
  unfold ksum. generalize (seq 0 n) as l.
  induction l as [|k l IH]; simpl; [reflexivity|].
  replace (kadd k0 k0) with k0 by ring. exact IH.
Qed.

Lemma ksum_opp (f : nat -> K) (n : nat) :
  ksum (fun k => kopp (f k)) n = kopp (ksum f n).
Proof.
  unfold ksum.
  assert (Hgen : forall l a,
             fold_left (fun acc k => kadd acc (kopp (f k))) l (kopp a)
             = kopp (fold_left (fun acc k => kadd acc (f k)) l a)).
  { induction l as [|k l IH]; intros a; simpl; [reflexivity|].
    rewrite <- IH. f_equal. ring. }
  rewrite <- Hgen. f_equal. ring.
Qed.

(** X12. For a system of one state, one input and one output,
    a = A[0,0], b = B[0,0], c = C[0,0], d = D[0,0], the polynomial [zero]
    hands to the solver has the value -(d (r - a) + b c) at every r; with a
    solver that gives exactly its roots, [zero] returns exactly the r with
    d (r - a) + b c = 0. *)
Theorem zero_scalar_system (A B C D : ndarray) :
  shape A = (1, 1) -> shape B = (1, 1) ->
  shape C = (1, 1) -> shape D = (1, 1) ->
  exists zf : poly,
    zero A B C D = ([EvDet; EvSolve], Ok (sp_solve zf)) /\
    (forall r, peval zf r
               = kopp (kadd (kmul (get D 0 0) (ksub r (get A 0 0)))
                            (kmul (get B 0 0) (get C 0 0)))) /\
    ((forall r, In r (sp_solve zf) <-> peval zf r = k0) ->
     forall r, In r (sp_solve zf) <->
               kadd (kmul (get D 0 0) (ksub r (get A 0 0)))
                    (kmul (get B 0 0) (get C 0 0)) = k0).
Proof.
  intros HA HB HC HD.
  destruct (zero_pencil HA HB HC HD) as (f & Hr & Hc & Hrun & Hval).
  exists (pdet 2 (sp_rows f)).
  assert (Hev : forall r, peval (pdet 2 (sp_rows f)) r
                = kopp (kadd (kmul (get D 0 0) (ksub r (get A 0 0)))
                             (kmul (get B 0 0) (get C 0 0)))).
  { intros r. rewrite peval_pdet, Hval.
    unfold kdet, block_identity, rosenbrock. cbn. ring. }
  split; [|split].
  - rewrite Hrun. unfold sp_det, solve. rewrite Hr, Hc. reflexivity.
  - exact Hev.
  - intros Hsolve r. rewrite Hsolve, Hev.
    set (x := kadd (kmul (get D 0 0) (ksub r (get A 0 0)))
                   (kmul (get B 0 0) (get C 0 0))).
    split; intros H.
    + assert (Hx : x = kopp (kopp x)) by ring. rewrite Hx, H. ring.
    + rewrite H. ring.
Qed.

(** An input pole vector whose eigenvector only has entries where B has
    zero rows is zero, and so is its norm. *)
Lemma input_pole_vector_zero {mods : ExactModulus K} (B vl : ndarray)
    (n m i : nat) :
  nrows B = n -> ncols B = m ->
  (forall j, j < n ->
     get vl j i = k0 \/ forall k, k < m -> get B j k = k0) ->
  norm (input_pole_vector B vl i) = k0.
Proof.
  intros HrB HcB Hz. unfold norm, input_pole_vector. simpl nrows. simpl ncols.
  rewrite ksum_zero; [apply ksqrt_0|].
  intros k Hk. rewrite ksum_zero; [reflexivity|].
  intros c Hc. rewrite get_build by lia.
  rewrite ksum_zero; [apply ksqabs_0|].
  intros j Hj. destruct (Hz j) as [Hv|Hb]; [lia | |].
  - rewrite Hv. ring.
  - rewrite Hb by lia. rewrite kconj_0. ring.
Qed.

(** X13. A mode that B cannot excite makes the answer False: on a system
    of the right shapes, if some left eigenvector has nonzero entries only
    at states whose row of B is zero, [state_controllability] returns
    False.  This covers a B that is zero and a B without columns. *)
Theorem unexcited_mode_not_controllable
    {eqd : ExactEq K} {mods : ExactModulus K}
    (A B : ndarray) (n m i : nat) :
  0 < n -> shape A = (n, n) -> shape B = (n, m) ->
  shape (eig_vl A) = (n, n) -> i < n ->
  (forall j, j < n ->
     get (eig_vl A) j i = k0 \/ forall k, k < m -> get B j k = k0) ->
  exists u_p control_matrix,
    state_controllability A B = ([EvEig], Ok (false, u_p, control_matrix)).
Proof.
  intros Hn HA HB Hvl Hi Hz.
  injection HA as HrA HcA. injection HB as HrB HcB.
  assert (Hb : negb (any (fun x => keqb (norm x) k0)
                         (map (input_pole_vector B (eig_vl A)) (seq 0 n)))
               = false).
  { apply negb_false_iff. unfold any. apply existsb_exists.
    exists (input_pole_vector B (eig_vl A) i). split.
    - apply in_map. apply in_seq. lia.
    - apply keqb_eq. now apply input_pole_vector_zero with (n := n) (m := m). }
  eexists _, _.
  rewrite (state_controllability_run A B (n := n)) by assumption.
  cbv zeta. rewrite Hb. reflexivity.
Qed.

(** X14. A mode that C cannot see makes the answer False: on a system of
    the right shapes, if some right eigenvector has nonzero entries only
    at states whose column of C is zero, [state_observability] returns
    False.  This covers a C that is zero and a C without rows. *)
Theorem unseen_mode_not_observable
    {eqd : ExactEq K} {mods : ExactModulus K}
    (A C : ndarray) (n p i : nat) :
  0 < n -> shape A = (n, n) -> shape C = (p, n) ->
  shape (eig_vr A) = (n, n) -> i < n ->
  (forall j, j < n ->
     get (eig_vr A) j i = k0 \/ forall k, k < p -> get C k j = k0) ->
  exists out_pole_vec observe_matrix,
    state_observability A C
    = ([EvEig], Ok (false, out_pole_vec, observe_matrix)).
Proof.
  intros Hn HA HC Hvr Hi Hz.
  injection HA as HrA HcA. injection HC as HrC HcC.
  assert (Hb : negb (any (fun x => keqb (npsum x) k0)
                         (map (output_pole_vector C (eig_vr A) 3) (seq 0 n)))
               = false).
  { apply negb_false_iff. unfold any. apply existsb_exists.
    exists (output_pole_vector C (eig_vr A) 3 i). split.
    - apply in_map. apply in_seq. lia.
    - apply keqb_eq. unfold npsum, output_pole_vector.
      simpl nrows. simpl ncols.
      apply ksum_zero. intros r Hr. apply ksum_zero. intros k Hk.
      rewrite get_build by lia. rewrite ksum_zero; [apply karound_0|].
      intros j Hj. rewrite HcC in Hj. destruct (Hz j Hj) as [Hv|Hc].
      + rewrite Hv. ring.
      + rewrite Hc by lia. ring. }
  eexists _, _.
  rewrite (state_observability_run A C (n := n)) by assumption.
  cbv zeta. rewrite Hb. reflexivity.
Qed.

(** X15. The sum test also answers False for outputs that cancel: with a
    C of two rows, the second the negative of the first, every output pole
    vector is (x, -x) after rounding, its entries sum to 0, and
    [state_observability] returns False whatever A is. *)
Theorem cancelling_outputs_not_observable
    {eqd : ExactEq K} {mods : ExactModulus K}
    (A C : ndarray) (n : nat) :
  0 < n -> shape A = (n, n) -> shape C = (2, n) ->
  shape (eig_vr A) = (n, n) ->
  (forall j, j < n -> get C 1 j = kopp (get C 0 j)) ->
  exists out_pole_vec observe_matrix,
    state_observability A C
    = ([EvEig], Ok (false, out_pole_vec, observe_matrix)).
Proof.
  intros Hn HA HC Hvr Hneg.
  injection HA as HrA HcA. injection HC as HrC HcC.
  assert (Hb : negb (any (fun x => keqb (npsum x) k0)
                         (map (output_pole_vector C (eig_vr A) 3) (seq 0 n)))
               = false).
  { apply negb_false_iff. unfold any. apply existsb_exists.
    exists (output_pole_vector C (eig_vr A) 3 0). split.
    - apply in_map. apply in_seq. lia.
    - apply keqb_eq. unfold npsum, output_pole_vector.
      simpl nrows. simpl ncols.
      rewrite HrC. unfold ksum at 1 2. cbn [seq fold_left].
      rewrite !get_build by lia.
      rewrite (ksum_ext (fun j => kmul (get C 1 j) (get (eig_vr A) j 0))
                 (fun j => kopp (kmul (get C 0 j) (get (eig_vr A) j 0)))).
      + rewrite ksum_opp, karound_opp. ring.
      + intros j Hj. rewrite Hneg by lia. ring. }
  eexists _, _.
  rewrite (state_observability_run A C (n := n)) by assumption.
  cbv zeta. rewrite Hb. reflexivity.
Qed.

(** X16. Without inputs and outputs (B with no column, C with no row, D
    empty) the polynomial [zero] hands to the solver is the characteristic
    polynomial of A: its value at every r is the determinant of r I - A. *)
Theorem zero_characteristic_polynomial (A B C D : ndarray) (n : nat) :
  shape A = (n, n) -> shape B = (n, 0) ->
  shape C = (0, n) -> shape D = (0, 0) ->
  exists zf : poly,
    zero A B C D = ([EvDet; EvSolve], Ok (sp_solve zf)) /\
    forall r,
      peval zf r
      = kdet n (rows (build n n
                   (fun i j => ksub (kmul r (if i =? j then k1 else k0))
                                    (get A i j)))).
Proof.
  intros HA HB HC HD.
  destruct (zero_pencil HA HB HC HD) as (f & Hr & Hc & Hrun & Hval).
  rewrite !Nat.add_0_r in *.
  exists (pdet n (sp_rows f)). split.
  - rewrite Hrun. unfold sp_det, solve. rewrite Hr, Hc, Nat.eqb_refl.
    reflexivity.
  - intros r. rewrite peval_pdet, Hval. do 2 f_equal.
    apply build_ext. intros i j Hi Hj.
    unfold block_identity, rosenbrock.
    apply Nat.ltb_lt in Hi, Hj. rewrite Hi, Hj.
    now rewrite andb_true_r.
Qed.

(** *** Sums and products of arrays in exact arithmetic *)

Lemma ksum_S (f : nat -> K) (n : nat) :
  ksum f (S n) = kadd (ksum f n) (f n).
Proof. unfold ksum. now rewrite seq_S, fold_left_app. Qed.

Lemma ksum_add (f g : nat -> K) (n : nat) :
  ksum (fun k => kadd (f k) (g k)) n = kadd (ksum f n) (ksum g n).
Proof.
  induction n as [|n IH]; [unfold ksum; simpl; ring|].
  rewrite !ksum_S, IH. ring.
Qed.

Lemma ksum_mul_l (c : K) (f : nat -> K) (n : nat) :
  ksum (fun k => kmul c (f k)) n = kmul c (ksum f n).
Proof.
  induction n as [|n IH]; [unfold ksum; simpl; ring|].
  rewrite !ksum_S, IH. ring.
Qed.

Lemma ksum_mul_r (c : K) (f : nat -> K) (n : nat) :
  ksum (fun k => kmul (f k) c) n = kmul (ksum f n) c.
Proof.
  induction n as [|n IH]; [unfold ksum; simpl; ring|].
  rewrite !ksum_S, IH. ring.
Qed.

Lemma ksum_swap (f : nat -> nat -> K) (n m : nat) :
  ksum (fun i => ksum (fun j => f i j) m) n
  = ksum (fun j => ksum (fun i => f i j) n) m.
Proof.
  induction n as [|n IH].
  - symmetry. apply ksum_zero. intros j _. reflexivity.
  - rewrite ksum_S, IH, <- ksum_add.
    apply ksum_ext. intros j _. now rewrite ksum_S.
Qed.

(** A sum against a row or a column of the identity picks one term. *)
Lemma ksum_delta_r (f : nat -> K) (n j : nat) :
  j < n ->
  ksum (fun l => kmul (f l) (if l =? j then k1 else k0)) n = f j.
Proof.
  induction n as [|n IH]; intros Hj; [lia|].
  rewrite ksum_S. destruct (Nat.eq_dec j n) as [->|Hne].
  - rewrite Nat.eqb_refl. rewrite ksum_zero; [ring|].
    intros l Hl. assert (Hln : (l =? n) = false) by (apply Nat.eqb_neq; lia).
    rewrite Hln. ring.
  - assert (Hnj : (n =? j) = false) by (apply Nat.eqb_neq; lia).
    rewrite Hnj, IH by lia. ring.
Qed.

Lemma ksum_delta_l (f : nat -> K) (n i : nat) :
  i < n ->
  ksum (fun l => kmul (if i =? l then k1 else k0) (f l)) n = f i.
Proof.
  intros Hi. rewrite <- (ksum_delta_r f Hi).
  apply ksum_ext. intros l _. rewrite (Nat.eqb_sym i l). ring.
Qed.

Lemma get_mmul (X Y : ndarray) (i j : nat) :
  i < nrows X -> j < ncols Y ->
  get (mmul X Y) i j
  = ksum (fun k => kmul (get X i k) (get Y k j)) (ncols X).
Proof. intros Hi Hj. unfold mmul. now rewrite get_build. Qed.

(** The product of arrays is associative, entry by entry. *)
Lemma mmul_assoc (X Y Z : ndarray) (i j : nat) :
  ncols X = nrows Y -> ncols Y = nrows Z ->
  i < nrows X -> j < ncols Z ->
  get (mmul X (mmul Y Z)) i j = get (mmul (mmul X Y) Z) i j.
Proof.
  intros HXY HYZ Hi Hj.
  rewrite !get_mmul by (simpl; lia). simpl ncols.
  rewrite (ksum_ext _ (fun a => ksum (fun b =>
             kmul (kmul (get X i a) (get Y a b)) (get Z b j)) (ncols Y))).
  2:{ intros a Ha. rewrite get_mmul by lia. rewrite <- ksum_mul_l.
      apply ksum_ext. intros b _. ring. }
  rewrite ksum_swap. apply ksum_ext. intros b Hb.
  rewrite get_mmul by lia. now rewrite ksum_mul_r.
Qed.

(** A square array commutes with its powers. *)
Lemma mpow_commutes (A : ndarray) (n k : nat) :
  nrows A = n -> ncols A = n ->
  forall i j, i < n -> j < n ->
    get (mmul A (mpow A k)) i j = get (mmul (mpow A k) A) i j.
Proof.
  intros HrA HcA. induction k as [|k IH]; intros i j Hi Hj.
  - cbn [mpow]. rewrite !get_mmul by (simpl; lia). simpl ncols.
    rewrite HrA, HcA.
    rewrite (ksum_ext _ (fun l => kmul (get A i l)
                                       (if l =? j then k1 else k0))).
    2:{ intros l Hl. unfold eye. now rewrite get_build by lia. }
    rewrite ksum_delta_r by lia.
    rewrite (ksum_ext _ (fun l => kmul (if i =? l then k1 else k0)
                                       (get A l j))).
    2:{ intros l Hl. unfold eye. now rewrite get_build by lia. }
    now rewrite ksum_delta_l by lia.
  - assert (Hrp : nrows (mpow A k) = n) by (rewrite nrows_mpow; exact HrA).
    assert (Hcp : ncols (mpow A k) = n) by (rewrite ncols_mpow; congruence).
    cbn [mpow].
    rewrite mmul_assoc by lia.
    rewrite (get_mmul (mmul A (mpow A k)) A) by (simpl; lia).
    rewrite (get_mmul (mmul (mpow A k) A) A) by (simpl; lia).
    simpl ncols. rewrite Hcp, HcA. apply ksum_ext. intros l Hl.
    rewrite IH by lia. reflexivity.
Qed.

(** The powers of the transpose are the transposes of the powers. *)
Lemma mpow_transpose (A : ndarray) (n k : nat) :
  nrows A = n -> ncols A = n ->
  forall i j, i < n -> j < n ->
    get (mpow (transpose A) k) i j = get (mpow A k) j i.
Proof.
  intros HrA HcA. induction k as [|k IH]; intros i j Hi Hj.
  - simpl. rewrite HrA, HcA. unfold eye. rewrite !get_build by lia.
    now rewrite Nat.eqb_sym.
  - assert (Hrt : nrows (mpow (transpose A) k) = n)
      by (rewrite nrows_mpow; exact HcA).
    assert (Hct : ncols (mpow (transpose A) k) = n)
      by (rewrite ncols_mpow; simpl; congruence).
    assert (Hrp : nrows (mpow A k) = n) by (rewrite nrows_mpow; exact HrA).
    assert (Hcp : ncols (mpow A k) = n) by (rewrite ncols_mpow; congruence).
    cbn [mpow].
    rewrite get_mmul by (simpl; lia). rewrite Hct.
    rewrite <- mpow_commutes with (n := n) by (assumption || lia).
    rewrite get_mmul by lia.
    rewrite HcA. apply ksum_ext. intros l Hl.
    rewrite IH by lia. unfold transpose. rewrite get_build by lia. ring.
Qed.

(** X17. Duality of the two matrices: on A of shape (n, n), n >= 1, and
    C of shape (p, n), the controllability matrix that
    [state_controllability] returns for (A.T, C.T) is the transpose of the
    observability matrix that [state_observability] returns for (A, C). *)
Theorem observability_controllability_duality (A C : ndarray) (n p : nat) :
  0 < n -> shape A = (n, n) -> shape C = (p, n) ->
  shape (eig_vr A) = (n, n) -> shape (eig_vl (transpose A)) = (n, n) ->
  exists state_obsr out_pole_vec observe_matrix
         state_control u_p control_matrix,
    state_observability A C
    = ([EvEig], Ok (state_obsr, out_pole_vec, observe_matrix)) /\
    state_controllability (transpose A) (transpose C)
    = ([EvEig], Ok (state_control, u_p, control_matrix)) /\
    control_matrix = transpose observe_matrix.
Proof.
  intros Hn HA HC Hvr Hvl. injection HA as HrA HcA. injection HC as HrC HcC.
  assert (Hob : Forall (fun X : ndarray => nrows X = p)
                  (map (fun k => mmul C (mpow A k)) (seq 0 n))).
  { apply Forall_forall. intros X HX. apply in_map_iff in HX.
    destruct HX as (k' & <- & _). exact HrC. }
  assert (Hcb : Forall (fun X : ndarray => ncols X = p)
                  (map (fun k => mmul (mpow (transpose A) k) (transpose C))
                       (seq 0 n))).
  { apply Forall_forall. intros X HX. apply in_map_iff in HX.
    destruct HX as (k' & <- & _). exact HrC. }
  eexists _, _, _, _, _, _. split; [|split].
  - apply (state_observability_run A C (n := n)); assumption.
  - apply (state_controllability_run (transpose A) (transpose C) (n := n));
      assumption.
  - assert (Htr : forall r c f,
               transpose (build r c f)
               = build c r (fun i j => get (build r c f) j i))
      by reflexivity.
    rewrite Htr.
    rewrite total_const with (1 := Hob).
    rewrite total_const with (1 := Hcb).
    rewrite !length_map, !length_seq.
    apply build_ext. intros i c Hi Hc.
    rewrite get_build by lia.
    assert (Hp : 0 < p) by nia.
    pose proof (Nat.div_mod_eq c p) as Hdm.
    pose proof (Nat.mod_upper_bound c p) as Hmod.
    set (k := c / p) in *. set (j := c mod p) in *.
    assert (Hj : j < p) by lia.
    assert (Hk : k < n) by nia.
    replace c with (k * p + j) by lia.
    rewrite hget_block with (d := eye 0);
      [| exact Hcb | rewrite length_map, length_seq; lia | lia].
    rewrite vget_block with (d := eye 0);
      [| exact Hob | rewrite length_map, length_seq; lia | lia].
    rewrite !nth_map_seq by lia.
    assert (Hrt : nrows (mpow (transpose A) k) = n)
      by (rewrite nrows_mpow; exact HcA).
    assert (Hct : ncols (mpow (transpose A) k) = n)
      by (rewrite ncols_mpow; simpl; congruence).
    assert (Hcp : ncols (mpow A k) = n) by (rewrite ncols_mpow; congruence).
    rewrite (get_mmul (mpow (transpose A) k) (transpose C)) by (simpl; lia).
    rewrite (get_mmul C (mpow A k)) by lia.
    rewrite Hct, HcC. apply ksum_ext. intros l Hl.
    rewrite mpow_transpose with (n := n) by (assumption || lia).
    unfold transpose. rewrite get_build by lia. ring.
Qed.

End ExactFacts.

(** ** The claims on the integer instance *)

Module IntExamples.

Import IntModel.

Local Open Scope Z_scope.

(** The controllable pair diag(1, 2), ones: both input pole vectors are
    nonzero. *)
Lemma state_controllability_decision_witness :
  exists state_control u_p control_matrix,
    state_controllability A_diag B_ones
    = ([EvEig], Ok (state_control, u_p, control_matrix)) /\
    u_p = map (input_pole_vector B_ones (eig_vl A_diag)) (seq 0 2) /\
    (state_control = true <-> Forall (fun u => norm u <> 0) u_p).
Proof.
  apply (@state_controllability_decision Z Z_numeric diag_linalg Z_eq
           A_diag B_ones 2 1); [lia | reflexivity | reflexivity | reflexivity].
Defined.

(** The pair diag(1, 2), [1, -1]: the rounded products are [1] and [-1]. *)
Lemma state_observability_decision_witness :
  exists state_obsr out_pole_vec observe_matrix,
    state_observability A_diag C_diff
    = ([EvEig], Ok (state_obsr, out_pole_vec, observe_matrix)) /\
    out_pole_vec = map (output_pole_vector C_diff (eig_vr A_diag) 3) (seq 0 2) /\
    (state_obsr = false <-> Exists (fun y => npsum y = 0) out_pole_vec).
Proof.
  apply (@state_observability_decision Z Z_numeric diag_linalg Z_eq
           A_diag C_diff 2 1); [lia | reflexivity | reflexivity | reflexivity].
Defined.

(** C3 fails as stated: with one output and two inputs the blocks are
    conformable, the pencil is 2 by 3, and the determinant call raises. *)
Lemma zero_raises_on_nonsquare_pencil :
  shape A_lag = (1%nat, 1%nat) /\ shape B_two = (1%nat, 2%nat) /\
  shape C_lag = (1%nat, 1%nat) /\ shape D_two = (1%nat, 2%nat) /\
  zero A_lag B_two C_lag D_two = ([EvDet], Raise NonSquareMatrixError) /\
  ~ (exists zs, outcome (zero A_lag B_two C_lag D_two) = Ok zs).
Proof.
  repeat split.
  intros (zs & Hzs). vm_compute in Hzs. discriminate.
Defined.

(** The lag with feed-through: (s + 2)/(s + 1) has its zero at -2; and the
    two-input variant, where the determinant raises. *)
Lemma zero_roots_of_pencil_determinant_witness :
  (exists zf : list Z,
     zero A_lag B_lag C_lag D_lag = ([EvDet; EvSolve], Ok (sp_solve zf)) /\
     (forall r, peval zf r = kdet (1 + 1) (pencil_at 1 (1 + 1) A_lag B_lag C_lag D_lag r)) /\
     ((forall r, In r (sp_solve zf) <-> peval zf r = 0) ->
      forall r, In r (sp_solve zf) <->
                kdet (1 + 1) (pencil_at 1 (1 + 1) A_lag B_lag C_lag D_lag r) = 0))
  /\ zero A_lag B_two C_lag D_two = ([EvDet], Raise NonSquareMatrixError).
Proof.
  split.
  - apply (@zero_roots_of_pencil_determinant Z Z_numeric diag_linalg Z_ring
             A_lag B_lag C_lag D_lag 1 1 1); reflexivity.
  - apply (@zero_roots_of_pencil_determinant Z Z_numeric diag_linalg Z_ring
             A_lag B_two C_lag D_two 1 2 1); try reflexivity. lia.
Defined.

(** C4 fails as stated: called for a pole with e = 0, G is evaluated at
    the location 1 itself. *)
Lemma pole_evaluated_at_location :
  eval_points (trace (pole_zero_directions G_diag [1] "p" "a" 0)) = [1] /\
  ~ Forall2 (fun s d => s <> d)
            (eval_points (trace (pole_zero_directions G_diag [1] "p" "a" 0)))
            [1].
Proof.
  split; [reflexivity|].
  intros H. vm_compute in H. inversion H as [|s d ss ds Hsd]. now apply Hsd.
Defined.

Lemma pole_zero_directions_evaluations_witness :
  (exists k, (k <= length [1; 2])%nat /\
     eval_points (trace (pole_zero_directions G_diag [1; 2] "z" "a" 5))
     = firstn k [1; 2] /\
     (forall r, outcome (pole_zero_directions G_diag [1; 2] "z" "a" 5) = Ok r ->
                k = length [1; 2]))
  /\
  (exists k, (k <= length [1; 2])%nat /\
     eval_points (trace (pole_zero_directions G_diag [1; 2] "p" "a" 5))
     = map (fun d => d + 5) (firstn k [1; 2]) /\
     (forall r, outcome (pole_zero_directions G_diag [1; 2] "p" "a" 5) = Ok r ->
                k = length [1; 2]))
  /\
  (forall d, d + 5 = d <-> 5 = 0).
Proof.
  exact (@pole_zero_directions_evaluations Z Z_numeric diag_linalg Z_ring
           G_diag [1; 2] "a" 5).
Defined.

Lemma G_diag_has_columns (e : Z) :
  Forall (fun d => svd_has_columns (G_diag (d + e))) [1; 2].
Proof. repeat constructor. Qed.

(** Poles 1 and 2 of a diagonal G, evaluated at 6 and 7, and its zeros
    evaluated at 1 and 2. *)
Lemma pole_zero_directions_columns_witness :
  pole_zero_directions G_diag [1; 2] "p" "a" 5
  = ([EvEvalG 6; EvSVD; EvEvalG 7; EvSVD],
     Ok [PyTuple 1 (array [[1]; [0]]) (array [[1]; [0]]);
         PyTuple 2 (array [[1]; [0]]) (array [[1]; [0]])])
  /\
  pole_zero_directions G_diag [1; 2] "z" "a" 5
  = ([EvEvalG 1; EvSVD; EvEvalG 2; EvSVD],
     Ok [PyTuple 1 (array [[0]; [1]]) (array [[0]; [1]]);
         PyTuple 2 (array [[0]; [1]]) (array [[0]; [1]])]).
Proof.
  destruct (@pole_zero_directions_columns Z Z_numeric diag_linalg
              G_diag [1; 2] "a" 5) as [Hp Hz].
  split.
  - exact (Hp (G_diag_has_columns 5)).
  - exact (Hz (G_diag_has_columns 0)).
Defined.

(** Two locations, display 'u': two entries, the input directions in the
    order of the locations. *)
Lemma pole_zero_directions_length_order_witness :
  exists t pz_dir,
    pole_zero_directions G_diag [1; 2] "p" "u" 5 = (t, Ok pz_dir) /\
    length pz_dir = length [1; 2] /\
    forall i d, nth_error [1; 2] i = Some d ->
      exists u y, directions G_diag "p" 5 d = (u, y) /\
        nth_error pz_dir i = Some (PyArr u).
Proof.
  exact (proj1 (@pole_zero_directions_length_order Z Z_numeric diag_linalg
                  G_diag [1; 2] "p" "u" 5)
               (G_diag_has_columns 5)).
Defined.

(** The example of the specification: A = [[0,1],[0,0]], B = [[0],[1]]. *)
Lemma controllability_matrix_blocks_witness :
  (exists state_control u_p control_matrix,
     state_controllability A_shift B_last
     = ([EvEig], Ok (state_control, u_p, control_matrix)) /\
     shape control_matrix = (2, 2 * 1)%nat /\
     forall k i j, (k < 2)%nat -> (i < 2)%nat -> (j < 1)%nat ->
       get control_matrix i (k * 1 + j) = get (mmul (mpow A_shift k) B_last) i j)
  /\
  (exists state_control u_p,
     state_controllability A_shift B_last
     = ([EvEig], Ok (state_control, u_p, array [[0; 1]; [1; 0]]))).
Proof.
  destruct (@controllability_matrix_blocks Z Z_numeric diag_linalg Z_ring)
    as [Hgen Hex].
  split.
  - apply (Hgen A_shift B_last 2%nat 1%nat); [lia | reflexivity ..].
  - apply Hex. reflexivity.
Defined.

(** diag(1, 2) with B = ones and C = [1, 1] is minimal. *)
Lemma is_min_realisation_conjunction_witness :
  is_min_realisation A_diag B_ones C_ones = ([EvEig; EvEig], Ok true) /\
  (outcome (is_min_realisation A_diag B_ones C_ones) = Ok true <->
   true = true /\ true = true).
Proof.
  apply (@is_min_realisation_conjunction Z Z_numeric diag_linalg
           A_diag B_ones C_ones [EvEig] [EvEig] true true
           [array [[1]]; array [[1]]] [array [[1]]; array [[1]]]
           (array [[1; 1]; [1; 2]]) (array [[1; 1]; [1; 2]]));
    reflexivity.
Defined.

(** C9 fails as stated: with a 1 by 1 A and a B of two rows the
    eigen-decomposition runs before the product raises; and a C of one
    column against a two-state A, with a D widened to match, is not
    detected at all. *)
Lemma shape_violation_not_detected_first :
  nrows B_tall <> nrows A_one /\
  state_controllability A_one B_tall = ([EvEig], Raise ValueError) /\
  ncols C_narrow <> ncols A_diag /\
  zero A_diag B_ones C_narrow D_two = ([EvDet; EvSolve], Ok [2]).
Proof.
  repeat split; try reflexivity; vm_compute; lia.
Defined.

Lemma shape_mismatch_surfaces_in_numpy_witness :
  state_controllability A_one B_tall = ([EvEig], Raise ValueError) /\
  zero A_one B_tall C_lag D_lag = ([], Raise ValueError).
Proof.
  destruct (@shape_mismatch_surfaces_in_numpy Z Z_numeric diag_linalg
              A_one B_tall C_lag D_lag) as [Hsc Hzero].
  split.
  - apply (Hsc 1%nat); [lia | reflexivity | vm_compute; lia | reflexivity].
  - apply Hzero. vm_compute. lia.
Defined.

(** dir_type 'x' is taken as 'z'. *)
Lemma pole_zero_directions_other_dir_type_witness :
  pole_zero_directions G_diag [1; 2] "x" "a" 5
  = pole_zero_directions G_diag [1; 2] "z" "a" 5 /\
  pole_zero_directions G_diag [1; 2] "x" "a" 5
  = ([EvEvalG 1; EvSVD; EvEvalG 2; EvSVD],
     Ok [PyTuple 1 (array [[0]; [1]]) (array [[0]; [1]]);
         PyTuple 2 (array [[0]; [1]]) (array [[0]; [1]])]).
Proof.
  destruct (@pole_zero_directions_other_dir_type Z Z_numeric diag_linalg
              G_diag [1; 2] "x" "a" 5) as (Hz & _ & Hrun).
  - discriminate.
  - split; [exact Hz | exact (Hrun (G_diag_has_columns 0))].
Defined.

(** *** The further properties on the integer instance *)

Lemma observability_matrix_blocks_witness :
  exists state_obsr out_pole_vec observe_matrix,
    state_observability A_diag C_ones
    = ([EvEig], Ok (state_obsr, out_pole_vec, observe_matrix)) /\
    shape observe_matrix = (2 * 1, 2)%nat /\
    forall k i j, (k < 2)%nat -> (i < 1)%nat -> (j < 2)%nat ->
      get observe_matrix (k * 1 + i) j = get (mmul C_ones (mpow A_diag k)) i j.
Proof.
  apply (@observability_matrix_blocks Z Z_numeric diag_linalg
           A_diag C_ones 2 1); [lia | reflexivity ..].
Defined.

Lemma state_observability_column_mismatch_witness :
  state_observability A_one C_ones = ([EvEig], Raise ValueError).
Proof.
  apply (@state_observability_column_mismatch Z Z_numeric diag_linalg
           A_one C_ones 1); [lia | reflexivity | vm_compute; lia | reflexivity].
Defined.

Lemma analyses_reject_nonsquare_witness :
  state_controllability A_wide B_lag = ([EvEig], Raise ValueError) /\
  state_observability A_wide C_lag = ([EvEig], Raise ValueError) /\
  is_min_realisation A_wide B_lag C_lag = ([EvEig], Raise ValueError).
Proof.
  apply (@analyses_reject_nonsquare Z Z_numeric diag_linalg
           A_wide B_lag C_lag). vm_compute. lia.
Defined.

Lemma is_min_realisation_propagates_witness :
  is_min_realisation A_one B_lag C_ones = ([EvEig], Raise ValueError) /\
  is_min_realisation A_one B_tall C_lag = ([EvEig; EvEig], Raise ValueError).
Proof.
  split.
  - apply (proj1 (@is_min_realisation_propagates Z Z_numeric diag_linalg
                    A_one B_lag C_ones)). reflexivity.
  - apply (proj2 (@is_min_realisation_propagates Z Z_numeric diag_linalg
                    A_one B_tall C_lag)
                 [EvEig] (true, [array [[1]]], array [[1]]) [EvEig] ValueError);
      reflexivity.
Defined.

Lemma is_min_realisation_decision_witness :
  exists is_min_real,
    is_min_realisation A_diag B_ones C_ones = ([EvEig; EvEig], Ok is_min_real) /\
    (is_min_real = true <->
     Forall (fun u => norm u <> 0)
            (map (input_pole_vector B_ones (eig_vl A_diag)) (seq 0 2)) /\
     Forall (fun y => npsum y <> 0)
            (map (output_pole_vector C_ones (eig_vr A_diag) 3) (seq 0 2))).
Proof.
  apply (@is_min_realisation_decision Z Z_numeric diag_linalg Z_eq
           A_diag B_ones C_ones 2 1 1); [lia | reflexivity ..].
Defined.

Lemma pole_zero_directions_locations_witness :
  map pz_location
      [PyTuple 1 (array [[1]; [0]]) (array [[1]; [0]]);
       PyTuple 2 (array [[1]; [0]]) (array [[1]; [0]])]
  = map Some [1; 2].
Proof.
  apply (proj1 (@pole_zero_directions_locations Z Z_numeric diag_linalg
                  G_diag [1; 2] "p" "a" 5
                  [EvEvalG 6; EvSVD; EvEvalG 7; EvSVD] _ eq_refl));
    discriminate.
Defined.

Lemma pole_zero_directions_index_error_witness :
  pole_zero_directions G_gap [1; 2; 3] "z" "u" 5
  = ([EvEvalG 1; EvSVD; EvEvalG 2; EvSVD], Raise IndexError).
Proof.
  apply (@pole_zero_directions_index_error Z Z_numeric diag_linalg
           G_gap [1] [3] 2 "z" "u" 5).
  - repeat constructor.
  - vm_compute. lia.
Defined.

Lemma pole_zero_directions_app_witness :
  pole_zero_directions G_diag ([1] ++ [2]) "p" "y" 5
  = ([EvEvalG 6; EvSVD] ++ [EvEvalG 7; EvSVD],
     Ok ([PyArr (array [[1]; [0]])] ++ [PyArr (array [[1]; [0]])])).
Proof.
  apply (proj1 (@pole_zero_directions_app Z Z_numeric diag_linalg
                  G_diag [1] [2] "p" "y" 5)); reflexivity.
Defined.

Lemma pole_zero_directions_single_column_witness :
  pole_zero_directions G_scalar [1; 2] "p" "a" 0
  = pole_zero_directions G_scalar [1; 2] "z" "a" 5.
Proof.
  apply (@pole_zero_directions_single_column Z Z_numeric diag_linalg
           G_scalar [1; 2] "a" 5).
  repeat constructor.
Defined.

Lemma zero_outcomes_witness :
  (exists t zs, zero A_lag B_lag C_lag D_lag = (t, Ok zs)) /\
  ~ (exists t zs, zero A_lag B_two C_lag D_two = (t, Ok zs)).
Proof.
  split.
  - apply (proj1 (@zero_outcomes Z Z_numeric diag_linalg
                    A_lag B_lag C_lag D_lag)).
    vm_compute. repeat split.
  - intros H.
    apply (proj1 (@zero_outcomes Z Z_numeric diag_linalg
                    A_lag B_two C_lag D_two)) in H.
    destruct H as [_ H]. vm_compute in H. discriminate.
Defined.

Lemma zero_scalar_system_witness :
  exists zf : list Z,
    zero A_lag B_lag C_lag D_lag = ([EvDet; EvSolve], Ok (sp_solve zf)) /\
    (forall r, peval zf r = - (1 * (r - -1) + 1 * 1)) /\
    ((forall r, In r (sp_solve zf) <-> peval zf r = 0) ->
     forall r, In r (sp_solve zf) <-> 1 * (r - -1) + 1 * 1 = 0).
Proof.
  apply (@zero_scalar_system Z Z_numeric diag_linalg Z_ring
           A_lag B_lag C_lag D_lag); reflexivity.
Defined.

Lemma unexcited_mode_not_controllable_witness :
  exists u_p control_matrix,
    state_controllability A_diag B_first
    = ([EvEig], Ok (false, u_p, control_matrix)).
Proof.
  apply (@unexcited_mode_not_controllable Z Z_numeric diag_linalg Z_ring
           Z_eq Z_modulus A_diag B_first 2 1 1);
    [lia | reflexivity | reflexivity | reflexivity | lia |].
  intros [|[|j]] Hj; [left; reflexivity | right | lia].
  intros [|k] Hk; [reflexivity | lia].
Defined.

Lemma unseen_mode_not_observable_witness :
  exists out_pole_vec observe_matrix,
    state_observability A_diag C_first
    = ([EvEig], Ok (false, out_pole_vec, observe_matrix)).
Proof.
  apply (@unseen_mode_not_observable Z Z_numeric diag_linalg Z_ring
           Z_eq Z_modulus A_diag C_first 2 1 1);
    [lia | reflexivity | reflexivity | reflexivity | lia |].
  intros [|[|j]] Hj; [left; reflexivity | right | lia].
  intros [|k] Hk; [reflexivity | lia].
Defined.

Lemma cancelling_outputs_not_observable_witness :
  exists out_pole_vec observe_matrix,
    state_observability A_diag C_cancel
    = ([EvEig], Ok (false, out_pole_vec, observe_matrix)).
Proof.
  apply (@cancelling_outputs_not_observable Z Z_numeric diag_linalg Z_ring
           Z_eq Z_modulus A_diag C_cancel 2);
    [lia | reflexivity | reflexivity | reflexivity |].
  intros [|[|j]] Hj; [reflexivity | reflexivity | lia].
Defined.

Lemma zero_characteristic_polynomial_witness :
  exists zf : list Z,
    zero A_diag B_none C_none D_none = ([EvDet; EvSolve], Ok (sp_solve zf)) /\
    forall r,
      peval zf r
      = kdet 2 (rows (build 2 2
                   (fun i j => (r * (if (i =? j)%nat then 1 else 0))
                               - get A_diag i j))).
Proof.
  apply (@zero_characteristic_polynomial Z Z_numeric diag_linalg Z_ring
           A_diag B_none C_none D_none 2); reflexivity.
Defined.

Lemma observability_controllability_duality_witness :
  exists state_obsr out_pole_vec observe_matrix
         state_control u_p control_matrix,
    state_observability A_diag C_diff
    = ([EvEig], Ok (state_obsr, out_pole_vec, observe_matrix)) /\
    state_controllability (transpose A_diag) (transpose C_diff)
    = ([EvEig], Ok (state_control, u_p, control_matrix)) /\
    control_matrix = transpose observe_matrix.
Proof.
  apply (@observability_controllability_duality Z Z_numeric diag_linalg
           Z_ring A_diag C_diff 2 1); [lia | reflexivity ..].
Defined.

End IntExamples.

(** ** The return difference of mvnyquist.py *)

Section MvnyquistFacts.

Context {F : Type} {num : Numeric F} {frac : Fractional F}
        {fld : ExactField F}.

Add Field Ffield : (@k_field F num frac fld).

(** X18. At every frequency s other than -1, -2 and 1, the determinant
    det(I + G(s) K(s)) that mvnyquist.py computes is
    (s^2 + 5 s + 7) / ((s + 1) (s + 2)) in exact arithmetic: the pole of G
    at s = 1 does not appear in it.  [image] is the list of these values,
    one per frequency, in order. *)
Theorem image_closed_form (alls : list F) :
  Forall (fun s => kadd s (Mvnyquist.kofnat 1) <> k0 /\
                   kadd s (Mvnyquist.kofnat 2) <> k0 /\
                   ksub s (Mvnyquist.kofnat 1) <> k0) alls ->
  Mvnyquist.image alls = ret (map return_difference alls).
Proof.
  intros Hs. unfold Mvnyquist.image. apply mapM_ret. intros s Hin.
  rewrite Forall_forall in Hs. destruct (Hs s Hin) as (H1 & H2 & H3).
  unfold matmul. cbn [ncols nrows Mvnyquist.G Mvnyquist.K Mvnyquist.I
                      Mvnyquist.scale array build eye length hd Nat.eqb].
  rewrite bind_ret_l. unfold Mvnyquist.np_add.
  cbn [ncols nrows Mvnyquist.G Mvnyquist.K Mvnyquist.I mmul
       Mvnyquist.scale array build eye length hd Nat.eqb
       Mvnyquist.broadcast].
  rewrite bind_ret_l. unfold Mvnyquist.np_det.
  cbn [ncols nrows build Nat.eqb].
  unfold ret. do 2 f_equal.
  unfold return_difference, kdet.
  cbn. field.
  cbn [Mvnyquist.kofnat] in H1, H2, H3.
  repeat split; intros E.
  - apply H2. replace (kadd (kadd k0 k1) k1) with (kadd k1 k1) by ring.
    exact E.
  - apply H1. replace (kadd k0 k1) with k1 by ring. exact E.
  - apply H3. replace (kadd k0 k1) with k1 by ring. exact E.
Qed.

End MvnyquistFacts.

Module RatExamples.

Import RatModel.

(** At s = 0 and s = 2 the determinant is 7/2 and 7/4. *)
Lemma image_closed_form_witness :
  Mvnyquist.image alls_two = ret (map return_difference alls_two).
Proof.
  apply (@image_closed_form Qc Qc_numeric Qc_fractional Qc_field alls_two).
  repeat constructor; intros H; apply (f_equal Qcanon.this) in H;
    vm_compute in H; discriminate.
Defined.

End RatExamples.
